(** * pycrf.modules.char_lstm: the character LSTM word encoder

    A shallow embedding of [CharLSTM] (src/pycrf/modules/char_lstm.py) and
    the properties of its constructor and of its [forward] pass.

    The encoder is a thin layer over [torch.nn.LSTM]: the recurrent
    primitive is not code of this repository, so it enters the development
    as an interface ([RecurrentPrimitive]).  The tensor operations that
    [forward] applies ([unsqueeze], [squeeze], [view], [torch.cat]) only
    rearrange shapes; they are modelled on tensors given by a shape and the
    row-major list of their entries. *)

From Stdlib Require Import ZArith List Bool Lia QArith Permutation.
Import ListNotations.

Local Open Scope nat_scope.

(** ** Tensors *)

Module Tensor.

(** A tensor is its shape and its entries in row-major order.  Strides are
    not modelled: every tensor that [forward] touches is contiguous. *)
Record tensor (A : Type) : Type := mkTensor {
  shape : list nat;
  data : list A
}.

Arguments mkTensor {A} shape data.
Arguments shape {A} t.
Arguments data {A} t.

Definition numel (sh : list nat) : nat := fold_right Nat.mul 1%nat sh.

(** The entries fill the shape. *)
Definition wf {A} (t : tensor A) : Prop := length (data t) = numel (shape t).

Definition wfb {A} (t : tensor A) : bool :=
  Nat.eqb (length (data t)) (numel (shape t)).

(** [t.unsqueeze(0)]: a new leading dimension of size one. *)
Definition unsqueeze0 {A} (t : tensor A) : tensor A :=
  mkTensor (1%nat :: shape t) (data t).

(** [t.squeeze()], without a dimension argument: EVERY dimension of size one
    is removed, not only the batch dimension. *)
Definition squeeze {A} (t : tensor A) : tensor A :=
  mkTensor (filter (fun d => negb (Nat.eqb d 1)) (shape t)) (data t).

(** [t.squeeze(1)]: dimension 1 is removed when its size is one.  [forward]
    does not call it; it states what removing the batch dimension alone
    would give. *)
Definition squeeze1 {A} (t : tensor A) : tensor A :=
  match shape t with
  | d0 :: 1%nat :: rest => mkTensor (d0 :: rest) (data t)
  | _ => t
  end.

(** [t.view(-1)]: one dimension holding all the entries. *)
Definition view_flat {A} (t : tensor A) : tensor A :=
  mkTensor [numel (shape t)] (data t).

(** What [torch.cat] raises. *)
Inductive cat_error : Type :=
| CatEmptyList      (* expected a non-empty list of Tensors *)
| CatZeroDim        (* zero-dimensional tensor cannot be concatenated *)
| CatSizeMismatch.  (* sizes of tensors must match except in dimension 0 *)

(** The one-dimensional empty tensor, which [torch.cat] skips. *)
Definition is_legacy_empty {A} (t : tensor A) : bool :=
  match shape t with
  | [0%nat] => true
  | _ => false
  end.

Fixpoint shape_eqb (a b : list nat) : bool :=
  match a, b with
  | [], [] => true
  | x :: a', y :: b' => Nat.eqb x y && shape_eqb a' b'
  | _, _ => false
  end.

Definition same_tail (tl : list nat) (sh : list nat) : bool :=
  match sh with
  | [] => false
  | _ :: tl' => shape_eqb tl tl'
  end.

Definition head_dim (sh : list nat) : nat :=
  match sh with
  | [] => 0%nat
  | d :: _ => d
  end.

(** [torch.cat(ts, dim=0)]. *)
Definition cat0 {A} (ts : list (tensor A)) : cat_error + tensor A :=
  match ts with
  | [] => inl CatEmptyList
  | _ :: _ =>
      match filter (fun t => negb (is_legacy_empty t)) ts with
      | [] => inr (mkTensor [0%nat] [])
      | t :: rest =>
          match shape t with
          | [] => inl CatZeroDim
          | _ :: tl =>
              if forallb (fun u => same_tail tl (shape u)) rest
              then inr (mkTensor
                          (fold_right Nat.add 0%nat
                             (map (fun u => head_dim (shape u)) (t :: rest)) :: tl)
                          (concat (map (@data A) (t :: rest))))
              else inl CatSizeMismatch
          end
      end
  end.

(** Row [i] of a two-dimensional tensor. *)
Definition row {A} (t : tensor A) (i : nat) : list A :=
  let m := nth 1 (shape t) 0%nat in
  firstn m (skipn (i * m) (data t)).

(** The rows of a two-dimensional tensor, top to bottom. *)
Definition rows {A} (t : tensor A) : list (list A) :=
  map (row t) (seq 0 (nth 0 (shape t) 0%nat)).

End Tensor.
Import Tensor.

(** ** The recurrent primitive *)

(** [torch.nn.LSTM] as [CharLSTM] uses it: a constructor, and a call that
    takes the module and an input tensor and gives the module as the call
    leaves it, with either the error it raised or the pair
    [(output, (h_n, c_n))]. *)
Class RecurrentPrimitive : Type := {
  scalar : Type;
  rnn_error : Type;
  LSTM_t : Type;
  (** [LSTM(input_size, hidden_size, num_layers, batch_first, dropout,
      bidirectional)]; the dropout, a finite float, is a rational. *)
  LSTM : Z -> Z -> Z -> bool -> Q -> bool -> rnn_error + LSTM_t;
  rnn_call : LSTM_t -> tensor scalar ->
             LSTM_t * (rnn_error + tensor scalar * (tensor scalar * tensor scalar))
}.

(** ** The encoder *)

Section Encoder.

Context {P : RecurrentPrimitive}.

Local Abbreviation tens := (tensor scalar).

(** The exceptions that can leave the constructor or [forward]: the module
    has no [raise] of its own, so they are the primitive's and
    [torch.cat]'s. *)
Inductive exn : Type :=
| RnnError (e : rnn_error)
| CatError (c : cat_error).

(** The attributes of a [CharLSTM] object. *)
Record CharLSTM : Type := mkCharLSTM {
  n_chars : Z;
  output_size : Z;
  rnn : LSTM_t
}.

(** [CharLSTM.__init__]. *)
Definition init (n_chars hidden_size : Z) (bidirectional : bool)
    (layers : Z) (dropout : Q) : exn + CharLSTM :=
  let output_size := (layers * hidden_size)%Z in
  let output_size := if bidirectional then (output_size * 2)%Z else output_size in
  match LSTM n_chars hidden_size layers true dropout bidirectional with
  | inl e => inl (RnnError e)
  | inr r => inr (mkCharLSTM n_chars output_size r)
  end.

(** Computations that call the primitive: the module [self.rnn] is threaded
    through, and an exception ends the computation. *)
Definition M (A : Type) : Type := LSTM_t -> LSTM_t * (exn + A).

Definition ret {A} (a : A) : M A := fun s => (s, inr a).

Definition bind {A B} (m : M A) (k : A -> M B) : M B :=
  fun s => match m s with
           | (s', inl e) => (s', inl e)
           | (s', inr a) => k a s'
           end.

Notation "x <- m ;; k" := (bind m (fun x => k))
  (at level 61, m at next level, right associativity).

(** [self.rnn(x)]. *)
Definition call_rnn (x : tens) : M (tens * (tens * tens)) :=
  fun s => match rnn_call s x with
           | (s', inl e) => (s', inl (RnnError e))
           | (s', inr r) => (s', inr r)
           end.

(** [torch.cat(hiddens, dim=0)]. *)
Definition cat (hiddens : list tens) : M tens :=
  fun s => match cat0 hiddens with
           | inl c => (s, inl (CatError c))
           | inr t => (s, inr t)
           end.

(** The body of the loop of [forward], for one word. *)
Definition encode_word (word : tens) : M tens :=
  r <- call_rnn (unsqueeze0 word) ;;
  let state := snd r in
  let hidden := fst state in
  let hidden := squeeze hidden in
  let hidden := unsqueeze0 (view_flat hidden) in
  ret hidden.

(** [for word in inputs: ... hiddens.append(hidden)]. *)
Fixpoint for_words (inputs : list tens) (hiddens : list tens) : M (list tens) :=
  match inputs with
  | [] => ret hiddens
  | word :: rest =>
      hidden <- encode_word word ;;
      for_words rest (hiddens ++ [hidden])
  end.

Definition forward_m (inputs : list tens) : M tens :=
  hiddens <- for_words inputs [] ;;
  cat hiddens.

(** [CharLSTM.forward]: the object after the call and what the call gave.
    [forward] assigns no attribute; [self.rnn] is changed only by the
    primitive's own calls. *)
Definition forward (self : CharLSTM) (inputs : list tens) : CharLSTM * (exn + tens) :=
  let (s', r) := forward_m inputs (rnn self) in
  (mkCharLSTM (n_chars self) (output_size self) s', r).

(** A sequence of [forward] calls on one object, each on its own input. *)
Fixpoint forwards (self : CharLSTM) (calls : list (list tens)) : CharLSTM :=
  match calls with
  | [] => self
  | inputs :: later => forwards (fst (forward self inputs)) later
  end.

(** *** What the encoder asks of the primitive *)

(** [directions]: two recurrent passes when bidirectional, one otherwise. *)
Definition directions (bidirectional : bool) : Z :=
  if bidirectional then 2%Z else 1%Z.

(** A word matrix [[word_length x n_chars]] with [word_length >= 1]. *)
Definition valid_word (n_chars : Z) (w : tens) : bool :=
  match shape w with
  | [len; width] => Nat.leb 1 len && Z.eqb (Z.of_nat width) n_chars && wfb w
  | _ => false
  end.

(** The minimal contract of the primitive: on a batch of one valid word it
    returns, and its final hidden state has shape
    [[states x 1 x hidden]].  [inv] holds of the modules the contract
    speaks of (those the constructor built, as calls leave them). *)
Record serves (inv : LSTM_t -> Prop) (n_chars : Z) (states hidden : nat) : Prop := {
  serves_next : forall s x, inv s -> inv (fst (rnn_call s x));
  serves_word : forall s w, inv s -> valid_word n_chars w = true ->
    exists out h c,
      snd (rnn_call s (unsqueeze0 w)) = inr (out, (h, c)) /\
      shape h = [states; 1%nat; hidden] /\ wf h
}.

(** Fixed parameters, no stochastic sub-layer: a call may change the
    module, but not what any later call returns. *)
Definition frozen (inv : LSTM_t -> Prop) : Prop :=
  forall s x y, inv s ->
    snd (rnn_call (fst (rnn_call s x)) y) = snd (rnn_call s y).

(** Two modules from which every call returns the same. *)
Definition agree (s1 s2 : LSTM_t) : Prop :=
  forall y, snd (rnn_call s1 y) = snd (rnn_call s2 y).

(** A primitive that checks the feature width of its input. *)
Definition rejects_width (inv : LSTM_t -> Prop) (n_chars : Z) : Prop :=
  forall s w len width, inv s -> shape w = [len; width] ->
    Z.of_nat width <> n_chars ->
    exists e, snd (rnn_call s (unsqueeze0 w)) = inl e.

(** The final hidden state [h_n] that the primitive, as the module [s],
    returns for the word [w]. *)
Definition h_n (s : LSTM_t) (w : tens) : option tens :=
  match snd (rnn_call s (unsqueeze0 w)) with
  | inr (_, (h, _)) => Some h
  | inl _ => None
  end.

(** Its entries, in the primitive's own order. *)
Definition row_of (s : LSTM_t) (w : tens) : list scalar :=
  match h_n s w with
  | Some h => data h
  | None => []
  end.

(** The module after the primitive has been called on each word in turn. *)
Fixpoint after_words (s : LSTM_t) (ws : list tens) : LSTM_t :=
  match ws with
  | [] => s
  | w :: rest => after_words (fst (rnn_call s (unsqueeze0 w))) rest
  end.

(** The hidden-state entries of each word, each from the module as the
    calls on the words before it left it. *)
Fixpoint trace (s : LSTM_t) (ws : list tens) : list (list scalar) :=
  match ws with
  | [] => []
  | w :: rest => row_of s w :: trace (fst (rnn_call s (unsqueeze0 w))) rest
  end.

(** *** The calls of the loop, apart from the reshaping *)

(** The calls that the loop of [forward] makes to the primitive, one per
    word and in order, up to the first that raises: the module as the last
    call left it, with the error, or else the final hidden states. *)
Fixpoint rnn_calls (s : LSTM_t) (ws : list tens)
    : LSTM_t * (rnn_error + list tens) :=
  match ws with
  | [] => (s, inr [])
  | w :: rest =>
      match rnn_call s (unsqueeze0 w) with
      | (s', inl e) => (s', inl e)
      | (s', inr (_, (h, _))) =>
          match rnn_calls s' rest with
          | (s'', inl e) => (s'', inl e)
          | (s'', inr hs) => (s'', inr (h :: hs))
          end
      end
  end.

(** A final hidden state as the one-row tensor the loop appends. *)
Definition as_row (h : tens) : tens :=
  mkTensor [1%nat; numel (shape h)] (data h).

(** Every state of [hs] has as many entries as [h]. *)
Definition same_numel (h : tens) (hs : list tens) : bool :=
  forallb (fun h' => Nat.eqb (numel (shape h)) (numel (shape h'))) hs.

End Encoder.

Arguments exn : clear implicits.
Arguments CharLSTM : clear implicits.

(** ** Two small primitives

    Concrete instances of the interface, on integer entries, used to run
    the encoder: one that accepts every configuration and every input, one
    that checks them as a recurrent layer usually does.  Their final hidden
    state depends on the word (the sum of its entries) and on the position
    in the state; the module counts its calls, which no result depends
    on. *)

Module Toy.

Inductive toy_error : Type :=
| BadConfig
| NotBatched
| InputSizeMismatch
| EmptySequence.

Record toy_lstm : Type := mkToy {
  input_size : Z;
  hidden_size : Z;
  num_states : Z;
  checks : bool;
  calls : nat
}.

Definition toy_new (checks : bool) (input_size hidden_size num_layers : Z)
    (batch_first : bool) (dropout : Q) (bidirectional : bool)
    : toy_error + toy_lstm :=
  if checks && (Z.leb hidden_size 0 || Z.leb num_layers 0
                || negb (Qle_bool 0 dropout && Qle_bool dropout 1))
  then inl BadConfig
  else inr (mkToy input_size hidden_size
              (num_layers * (if bidirectional then 2 else 1))%Z checks 0).

Definition toy_hidden (m : toy_lstm) (x : tensor Z) : tensor Z :=
  let states := Z.to_nat (num_states m) in
  let hidden := Z.to_nat (hidden_size m) in
  mkTensor [states; 1%nat; hidden]
    (map (fun k => (fold_right Z.add 0 (data x) + Z.of_nat k)%Z)
         (seq 0 (states * hidden))).

Definition toy_cell (m : toy_lstm) : tensor Z :=
  let states := Z.to_nat (num_states m) in
  let hidden := Z.to_nat (hidden_size m) in
  mkTensor [states; 1%nat; hidden] (repeat 0%Z (states * hidden)).

Definition toy_check (m : toy_lstm) (x : tensor Z) : option toy_error :=
  match shape x with
  | [_; len; width] =>
      if negb (Z.eqb (Z.of_nat width) (input_size m)) then Some InputSizeMismatch
      else if Nat.eqb len 0 then Some EmptySequence
      else None
  | _ => Some NotBatched
  end.

Definition toy_call (m : toy_lstm) (x : tensor Z)
    : toy_lstm * (toy_error + tensor Z * (tensor Z * tensor Z)) :=
  let m' := mkToy (input_size m) (hidden_size m) (num_states m) (checks m)
              (S (calls m)) in
  match (if checks m then toy_check m x else None) with
  | Some e => (m', inl e)
  | None => (m', inr (x, (toy_hidden m x, toy_cell m)))
  end.

Definition prim (chk : bool) : RecurrentPrimitive :=
  {| scalar := Z; rnn_error := toy_error; LSTM_t := toy_lstm;
     LSTM := toy_new chk; rnn_call := toy_call |}.

(** Accepts everything. *)
Definition loose : RecurrentPrimitive := prim false.

(** Checks the configuration, the feature width and the length. *)
Definition strict : RecurrentPrimitive := prim true.

(** The modules built for one configuration, after any number of calls. *)
Definition built (chk : bool) (n_chars hidden layers : Z) (bidirectional : bool)
    (m : toy_lstm) : Prop :=
  input_size m = n_chars /\ hidden_size m = hidden /\
  num_states m = (layers * directions bidirectional)%Z /\
  checks m = chk.

(** [CharLSTM(5, 3)] over either primitive: bidirectional, one layer. *)
Definition encoder (chk : bool) : CharLSTM (prim chk) :=
  mkCharLSTM (P := prim chk) 5 6 (mkToy 5 3 2 chk 0).

(** What stands for the learnable parameters: all but the call count. *)
Definition toy_parameters (m : toy_lstm) : Z * Z * Z * bool :=
  (input_size m, hidden_size m, num_states m, checks m).

(** A word [[len x width]] whose entries are all [v]. *)
Definition const_word (len width : nat) (v : Z) : tensor Z :=
  mkTensor [len; width] (repeat v (len * width)).

(** A word of four characters and a word of one. *)
Definition two_words : list (tensor Z) := [const_word 4 5 1; const_word 1 5 2].

(** The same two words, the other way round. *)
Definition swapped_words : list (tensor Z) :=
  [const_word 1 5 2; const_word 4 5 1].

(** A primitive that keeps no contract: it gives its input back as the
    final hidden state, so that words of different lengths have states of
    different sizes. *)
Definition echo : RecurrentPrimitive :=
  {| scalar := Z; rnn_error := toy_error; LSTM_t := nat;
     LSTM := fun _ _ _ _ _ _ => inr 0%nat;
     rnn_call := fun s x => (S s, inr (x, (x, x))) |}.

(** [CharLSTM(5, 3)] over it. *)
Definition echo_encoder : CharLSTM echo := mkCharLSTM (P := echo) 5 6 0%nat.





End Toy.

(** ** Facts about the tensor operations *)

Section TensorFacts.

Variable A : Type.

Lemma numel_squeeze (sh : list nat) :
  numel (filter (fun d => negb (Nat.eqb d 1)) sh) = numel sh.
Proof.
  induction sh as [|d sh IH]; simpl; [reflexivity|].
  destruct (Nat.eqb_spec d 1) as [->|Hd]; simpl; rewrite IH; lia.
Qed.

(** Flattening after [squeeze()] keeps every entry, in order. *)
Lemma view_flat_squeeze (t : tensor A) :
  view_flat (squeeze t) = mkTensor [numel (shape t)] (data t).
Proof.
  unfold view_flat, squeeze; simpl. now rewrite numel_squeeze.
Qed.

Lemma filter_keeps_rows (m : nat) (ts : list (tensor A)) :
  Forall (fun t => shape t = [1%nat; m]) ts ->
  filter (fun t => negb (is_legacy_empty t)) ts = ts.
Proof.
  induction 1 as [|t ts Ht _ IH]; simpl; [reflexivity|].
  unfold is_legacy_empty at 1. rewrite Ht. simpl. now rewrite IH.
Qed.

Lemma heads_of_rows (m : nat) (ts : list (tensor A)) :
  Forall (fun t => shape t = [1%nat; m]) ts ->
  fold_right Nat.add 0%nat (map (fun u => head_dim (shape u)) ts) = length ts.
Proof.
  induction 1 as [|t ts Ht _ IH]; simpl; [reflexivity|].
  rewrite Ht, IH. reflexivity.
Qed.

Lemma tails_of_rows (m : nat) (ts : list (tensor A)) :
  Forall (fun t => shape t = [1%nat; m]) ts ->
  forallb (fun u => same_tail [m] (shape u)) ts = true.
Proof.
  induction 1 as [|t ts Ht _ IH]; cbn [forallb]; [reflexivity|].
  rewrite Ht, IH. simpl. now rewrite Nat.eqb_refl.
Qed.

(** [torch.cat] of one-row tensors of equal width stacks them. *)
Lemma cat0_rows (m : nat) (ts : list (tensor A)) :
  ts <> [] ->
  Forall (fun t => shape t = [1%nat; m]) ts ->
  cat0 ts = inr (mkTensor [length ts; m] (concat (map (@data A) ts))).
Proof.
  intros Hne Hall. unfold cat0.
  destruct ts as [|t ts]; [congruence|].
  rewrite (filter_keeps_rows m _ Hall).
  pose proof (Forall_inv Hall) as Ht. simpl in Ht. rewrite Ht.
  rewrite (tails_of_rows m _ (Forall_inv_tail Hall)).
  now rewrite (heads_of_rows m _ Hall).
Qed.

Lemma skipn_concat_rows (m : nat) (ls : list (list A)) (i : nat) :
  Forall (fun l => length l = m) ls ->
  skipn (i * m) (concat ls) = concat (skipn i ls).
Proof.
  intros Hall. revert i.
  induction Hall as [|l ls Hl _ IH]; intros i.
  - destruct i; simpl; now rewrite ?skipn_nil.
  - destruct i as [|i]; [reflexivity|].
    simpl concat at 1. cbn [Nat.mul skipn].
    rewrite skipn_app.
    replace (m + i * m - length l) with (i * m) by lia.
    rewrite (skipn_all2 l) by lia. simpl. apply IH.
Qed.

(** Row [i] of stacked rows of equal width is the [i]-th of them. *)
Lemma row_concat (n m : nat) (ls : list (list A)) (i : nat) :
  Forall (fun l => length l = m) ls ->
  i < length ls ->
  row (mkTensor [n; m] (concat ls)) i = nth i ls [].
Proof.
  intros Hall Hi. unfold row. simpl.
  rewrite (skipn_concat_rows m ls i Hall).
  revert i Hi. induction Hall as [|l ls Hl Hall IH]; intros i Hi.
  - simpl in Hi. lia.
  - destruct i as [|i]; simpl.
    + rewrite <- Hl. rewrite firstn_app, Nat.sub_diag, firstn_all. simpl.
      now rewrite app_nil_r.
    + apply IH. simpl in Hi. lia.
Qed.

Lemma rows_concat (m : nat) (ls : list (list A)) :
  Forall (fun l => length l = m) ls ->
  rows (mkTensor [length ls; m] (concat ls)) = ls.
Proof.
  intros Hall. unfold rows. simpl.
  apply nth_ext with (d := []) (d' := []).
  - now rewrite length_map, length_seq.
  - intros i Hi. rewrite length_map, length_seq in Hi.
    rewrite (nth_indep _ [] (row (mkTensor [length ls; m] (concat ls)) 0))
      by now rewrite length_map, length_seq.
    rewrite map_nth, seq_nth by exact Hi. simpl.
    now apply row_concat.
Qed.

End TensorFacts.

(** ** Facts about the loop of [forward] *)

Section EncoderFacts.

Context {P : RecurrentPrimitive}.

Local Abbreviation tens := (tensor scalar).

(** One pass of the loop body: the primitive's error, or its final hidden
    state as one row. *)
Lemma encode_word_eq (w : tens) (s : LSTM_t) :
  encode_word w s =
  (fst (rnn_call s (unsqueeze0 w)),
   match snd (rnn_call s (unsqueeze0 w)) with
   | inl e => inl (RnnError e)
   | inr (_, (h, _)) => inr (mkTensor [1; numel (shape h)] (data h))
   end).
Proof.
  unfold encode_word, bind, call_rnn, ret.
  destruct (rnn_call s (unsqueeze0 w)) as [s' [e|[out [h c]]]]; simpl;
    [reflexivity|].
  rewrite view_flat_squeeze. reflexivity.
Qed.

Lemma for_words_cons (w : tens) (ws acc : list tens) (s : LSTM_t) :
  for_words (w :: ws) acc s =
  match encode_word w s with
  | (s', inl e) => (s', inl e)
  | (s', inr hidden) => for_words ws (acc ++ [hidden]) s'
  end.
Proof. reflexivity. Qed.

(** The rows already collected stay in front. *)
Lemma for_words_acc (ws : list tens) :
  forall acc s,
    for_words ws acc s =
    (fst (for_words ws [] s),
     match snd (for_words ws [] s) with
     | inl e => inl e
     | inr hs => inr (acc ++ hs)
     end).
Proof.
  induction ws as [|w ws IH]; intros acc s.
  - simpl. unfold ret. simpl. now rewrite app_nil_r.
  - rewrite !for_words_cons.
    destruct (encode_word w s) as [s' [e|h]]; [reflexivity|].
    rewrite (IH (acc ++ [h])), (IH ([] ++ [h])). simpl.
    destruct (snd (for_words ws [] s')); [reflexivity|].
    now rewrite <- app_assoc.
Qed.

(** [forward] assigns neither attribute. *)
Lemma forward_attrs (self : CharLSTM P) (inputs : list tens) :
  n_chars (fst (forward self inputs)) = n_chars self /\
  output_size (fst (forward self inputs)) = output_size self.
Proof.
  unfold forward. destruct (forward_m inputs (rnn self)); simpl. tauto.
Qed.

Lemma forwards_attrs (calls : list (list tens)) :
  forall self : CharLSTM P,
    n_chars (forwards self calls) = n_chars self /\
    output_size (forwards self calls) = output_size self.
Proof.
  induction calls as [|inputs later IH]; intros self; simpl; [tauto|].
  destruct (IH (fst (forward self inputs))) as [-> ->].
  apply forward_attrs.
Qed.

Lemma forward_eq (self : CharLSTM P) (inputs : list tens) :
  forward self inputs =
  (mkCharLSTM (n_chars self) (output_size self)
     (fst (for_words inputs [] (rnn self))),
   match snd (for_words inputs [] (rnn self)) with
   | inl e => inl e
   | inr hiddens =>
       match cat0 hiddens with
       | inl c => inl (CatError c)
       | inr t => inr t
       end
   end).
Proof.
  unfold forward, forward_m, bind, cat.
  destruct (for_words inputs [] (rnn self)) as [s' [e|hs]]; simpl;
    [reflexivity|].
  destruct (cat0 hs); reflexivity.
Qed.

Section Contract.

Variable inv : LSTM_t -> Prop.
Variable n : Z.
Variables states hidden : nat.
Hypothesis Hserves : serves inv n states hidden.

Lemma numel_state : numel [states; 1; hidden] = states * hidden.
Proof. simpl. lia. Qed.

Lemma encode_word_serves (s : LSTM_t) (w : tens) :
  inv s -> valid_word n w = true ->
  encode_word w s =
  (fst (rnn_call s (unsqueeze0 w)),
   inr (mkTensor [1; states * hidden] (row_of s w))) /\
  length (row_of s w) = states * hidden.
Proof.
  intros Hs Hw. rewrite encode_word_eq. unfold row_of, h_n.
  destruct Hserves as [_ Hword].
  destruct (Hword s w Hs Hw) as (out & h & c & -> & Hsh & Hwf).
  unfold wf in Hwf. rewrite Hsh in *. rewrite numel_state in *.
  split; [reflexivity|exact Hwf].
Qed.

(** On valid words the loop ends with one row per word, in order. *)
Lemma for_words_serves (ws : list tens) :
  forall s, inv s ->
    Forall (fun w => valid_word n w = true) ws ->
    for_words ws [] s =
    (after_words s ws,
     inr (map (mkTensor [1; states * hidden]) (trace s ws))) /\
    inv (after_words s ws) /\
    Forall (fun l => length l = states * hidden) (trace s ws) /\
    length (trace s ws) = length ws.
Proof.
  induction ws as [|w ws IH]; intros s Hs Hall.
  - simpl. unfold ret. auto.
  - pose proof (Forall_inv Hall) as Hw. simpl in Hw.
    apply Forall_inv_tail in Hall.
    destruct (encode_word_serves s w Hs Hw) as [Henc Hlen].
    assert (Hs' : inv (fst (rnn_call s (unsqueeze0 w))))
      by (destruct Hserves as [Hnext _]; now apply Hnext).
    destruct (IH _ Hs' Hall) as (Hrun & Hinv & Hrows & Hcount).
    rewrite for_words_cons, Henc, for_words_acc, Hrun. simpl.
    repeat split; auto.
Qed.

Lemma forward_serves (self : CharLSTM P) (ws : list tens) :
  inv (rnn self) -> ws <> [] ->
  Forall (fun w => valid_word n w = true) ws ->
  forward self ws =
  (mkCharLSTM (n_chars self) (output_size self) (after_words (rnn self) ws),
   inr (mkTensor [length ws; states * hidden] (concat (trace (rnn self) ws)))).
Proof.
  intros Hs Hne Hall.
  destruct (for_words_serves ws _ Hs Hall) as (Hrun & _ & _ & Hcount).
  rewrite forward_eq, Hrun. simpl.
  rewrite (cat0_rows _ (states * hidden)).
  - rewrite length_map, Hcount, map_map. simpl. now rewrite map_id.
  - destruct ws; [congruence|]. simpl. congruence.
  - apply Forall_forall. intros t Ht. apply in_map_iff in Ht.
    destruct Ht as (l & <- & _). reflexivity.
Qed.

End Contract.

End EncoderFacts.

(** ** The constructor and the shape of the result *)

Section Results.

Context {P : RecurrentPrimitive}.

Local Abbreviation tens := (tensor scalar).

(** What a successful construction stored. *)
Lemma init_inr (nc hs : Z) (bi : bool) (ly : Z) (dr : Q) (self : CharLSTM P) :
  init nc hs bi ly dr = inr self ->
  n_chars self = nc /\
  output_size self = (ly * hs * directions bi)%Z /\
  LSTM nc hs ly true dr bi = inr (rnn self).
Proof.
  unfold init. destruct (LSTM nc hs ly true dr bi) as [e|r]; [discriminate|].
  intros [= <-]. simpl. repeat split. unfold directions.
  destruct bi; lia.
Qed.

(** The stored size is the number of entries of a final hidden state. *)
Lemma output_size_states (hs : Z) (bi : bool) (ly : Z) :
  (1 <= ly)%Z -> (1 <= hs)%Z ->
  Z.to_nat (ly * hs * directions bi) =
  Z.to_nat (ly * directions bi) * Z.to_nat hs.
Proof.
  intros Hl Hh. rewrite <- Z2Nat.inj_mul.
  - f_equal. lia.
  - unfold directions. destruct bi; lia.
  - lia.
Qed.

Lemma forward_nil (self : CharLSTM P) :
  forward self [] = (self, inl (CatError CatEmptyList)).
Proof. destruct self; reflexivity. Qed.

(** The [i]-th row of the trace comes from the [i]-th word and the module
    as the words before it left it. *)
Lemma nth_trace (d : tens) (ws : list tens) :
  forall s i, i < length ws ->
    nth i (trace s ws) [] = row_of (after_words s (firstn i ws)) (nth i ws d).
Proof.
  induction ws as [|w ws IH]; intros s i Hi; simpl in Hi; [lia|].
  destruct i as [|i]; simpl; [reflexivity|].
  apply IH. lia.
Qed.

(** C1: a construction that succeeds stores
    [output_size = layers * hidden_size * 2] when bidirectional and
    [layers * hidden_size] otherwise, and no later [forward] call, nor any
    sequence of them, changes the stored value. *)
Theorem C1_output_size (n_chars hidden_size : Z) (bidirectional : bool)
    (layers : Z) (dropout : Q) (self : CharLSTM P) :
  init n_chars hidden_size bidirectional layers dropout = inr self ->
  output_size self =
    (if bidirectional then layers * hidden_size * 2
     else layers * hidden_size)%Z /\
  (forall inputs, output_size (fst (forward self inputs)) = output_size self) /\
  (forall calls, output_size (forwards self calls) = output_size self).
Proof.
  intros Hinit. apply init_inr in Hinit. destruct Hinit as (_ & Hout & _).
  split; [|split].
  - rewrite Hout. unfold directions. destruct bidirectional; lia.
  - intros inputs. apply forward_attrs.
  - intros calls. apply forwards_attrs.
Qed.

(** C2: on the empty list the loop collects nothing and [torch.cat]
    receives an empty list, which it refuses: [forward] raises instead of
    returning a tensor with no row. *)
Theorem C2_forward_empty_raises (self : CharLSTM P) :
  forward self [] = (self, inl (CatError CatEmptyList)) /\
  forall t : tens, snd (forward self []) <> inr t.
Proof.
  rewrite forward_nil. split; [reflexivity|]. simpl. discriminate.
Qed.

(** C3: on a non-empty list of valid word matrices [forward] returns a
    two-dimensional tensor with one row per word and [output_size] entries
    per row, row [i] being the final hidden state of word [i]; on the
    empty list it raises instead of returning a result with no row. *)
Theorem C3_forward_shape (inv : LSTM_t -> Prop) (nc hs : Z) (bi : bool)
    (ly : Z) (dr : Q) (self : CharLSTM P) (ws : list tens) (d : tens) :
  init nc hs bi ly dr = inr self ->
  (1 <= ly)%Z -> (1 <= hs)%Z ->
  serves inv (n_chars self) (Z.to_nat (ly * directions bi)) (Z.to_nat hs) ->
  inv (rnn self) ->
  Forall (fun w => valid_word (n_chars self) w = true) ws ->
  (ws <> [] ->
   exists t,
     snd (forward self ws) = inr t /\
     shape t = [length ws; Z.to_nat (output_size self)] /\
     wf t /\
     length (rows t) = length ws /\
     forall i, i < length ws ->
       length (row t i) = Z.to_nat (output_size self) /\
       nth i (rows t) [] = row t i /\
       row t i = row_of (after_words (rnn self) (firstn i ws)) (nth i ws d)) /\
  (ws = [] -> snd (forward self ws) = inl (CatError CatEmptyList)).
Proof.
  intros Hinit Hl Hh Hserves Hinv Hall. split.
  - intros Hne.
    destruct (init_inr _ _ _ _ _ _ Hinit) as (_ & Hout & _).
    rewrite Hout, output_size_states by assumption.
    set (S := Z.to_nat (ly * directions bi)) in *.
    set (H := Z.to_nat hs) in *.
    destruct (for_words_serves inv _ S H Hserves ws _ Hinv Hall)
      as (_ & _ & Hrows & Hcount).
    rewrite (forward_serves inv _ S H Hserves self ws Hinv Hne Hall). simpl.
    eexists. split; [reflexivity|]. simpl.
    assert (Hrow : forall i, i < length ws ->
              row (mkTensor [length ws; S * H] (concat (trace (rnn self) ws))) i
              = nth i (trace (rnn self) ws) [])
      by (intros i Hi; apply row_concat; [assumption|lia]).
    repeat split.
    + unfold wf. simpl. rewrite Nat.mul_1_r, <- Hcount.
      clear - Hrows.
      induction Hrows as [|l ls Hlen _ IH]; simpl; [reflexivity|].
      rewrite length_app, IH, Hlen. reflexivity.
    + unfold rows. simpl. now rewrite length_map, length_seq.
    + rewrite Hrow by assumption.
      eapply Forall_forall in Hrows; [exact Hrows|].
      apply nth_In. lia.
    + rewrite Hrow by assumption. rewrite <- Hcount.
      now rewrite (rows_concat _ (S * H) _ Hrows).
    + rewrite Hrow by assumption. now apply nth_trace.
  - intros ->. now rewrite forward_nil.
Qed.

End Results.

(** ** Calls that do not change what the primitive returns *)

Section Frozen.

Context {P : RecurrentPrimitive}.

Local Abbreviation tens := (tensor scalar).

Variable inv : LSTM_t -> Prop.
Hypothesis Hnext : forall s x, inv s -> inv (fst (rnn_call s x)).
Hypothesis Hfrozen : frozen inv.

Lemma agree_refl (s : LSTM_t) : agree s s.
Proof. intros y. reflexivity. Qed.

Lemma agree_trans (s1 s2 s3 : LSTM_t) :
  agree s1 s2 -> agree s2 s3 -> agree s1 s3.
Proof. intros H12 H23 y. now rewrite H12. Qed.

Lemma agree_call (s : LSTM_t) (x : tens) :
  inv s -> agree s (fst (rnn_call s x)).
Proof. intros Hs y. symmetry. now apply Hfrozen. Qed.

Lemma encode_word_agree (w : tens) (s1 s2 : LSTM_t) :
  agree s1 s2 -> snd (encode_word w s1) = snd (encode_word w s2).
Proof. intros H. rewrite !encode_word_eq. simpl. now rewrite H. Qed.


(** The loop leaves a module that still returns the same. *)
Lemma for_words_keeps (ws : list tens) :
  forall acc s, inv s ->
    inv (fst (for_words ws acc s)) /\ agree s (fst (for_words ws acc s)).
Proof.
  induction ws as [|w ws IH]; intros acc s Hs.
  - simpl. split; [assumption|apply agree_refl].
  - rewrite for_words_cons, encode_word_eq.
    pose proof (Hnext s (unsqueeze0 w) Hs) as Hs'.
    pose proof (agree_call s (unsqueeze0 w) Hs) as Hag.
    destruct (snd (rnn_call s (unsqueeze0 w))) as [e|[out [h c]]].
    + simpl. auto.
    + destruct (IH (acc ++ [mkTensor [1; numel (shape h)] (data h)]) _ Hs')
        as [Hi Ha].
      split; [exact Hi|]. eapply agree_trans; eassumption.
Qed.

(** From modules that return the same, the loop gives the same. *)
Lemma for_words_agree (ws : list tens) :
  forall acc s1 s2, inv s1 -> inv s2 -> agree s1 s2 ->
    snd (for_words ws acc s1) = snd (for_words ws acc s2).
Proof.
  induction ws as [|w ws IH]; intros acc s1 s2 H1 H2 Hag; [reflexivity|].
  rewrite !for_words_cons, !encode_word_eq. rewrite <- (Hag (unsqueeze0 w)).
  destruct (snd (rnn_call s1 (unsqueeze0 w))) as [e|[out [h c]]];
    [reflexivity|].
  apply IH; auto.
  eapply agree_trans; [|apply agree_call; exact H2].
  eapply agree_trans; [|exact Hag].
  intros y. now apply Hfrozen.
Qed.

Lemma forward_agree (a b : CharLSTM P) (ws : list tens) :
  inv (rnn a) -> inv (rnn b) -> agree (rnn a) (rnn b) ->
  snd (forward a ws) = snd (forward b ws).
Proof.
  intros Ha Hb Hag. rewrite !forward_eq. simpl.
  now rewrite (for_words_agree ws [] _ _ Ha Hb Hag).
Qed.

Lemma forward_keeps (self : CharLSTM P) (ws : list tens) :
  inv (rnn self) ->
  inv (rnn (fst (forward self ws))) /\
  agree (rnn self) (rnn (fst (forward self ws))).
Proof.
  intros Hs. rewrite forward_eq. simpl. now apply for_words_keeps.
Qed.

Lemma forwards_keeps (calls : list (list tens)) :
  forall self : CharLSTM P, inv (rnn self) ->
    inv (rnn (forwards self calls)) /\
    agree (rnn self) (rnn (forwards self calls)).
Proof.
  induction calls as [|ws later IH]; intros self Hs; simpl.
  - split; [assumption|apply agree_refl].
  - destruct (forward_keeps self ws Hs) as [Hi Ha].
    destruct (IH _ Hi) as [Hi' Ha'].
    split; [exact Hi'|]. eapply agree_trans; eassumption.
Qed.


End Frozen.

(** ** Rows, words and batches *)

Section Rows.

Context {P : RecurrentPrimitive}.

Local Abbreviation tens := (tensor scalar).

Lemma serves_keeps (inv : LSTM_t -> Prop) (n : Z) (states hidden : nat) :
  serves inv n states hidden ->
  forall s x, inv s -> inv (fst (rnn_call s x)).
Proof. intros [Hnext _]. exact Hnext. Qed.





(** C8: with a frozen primitive (fixed parameters, no stochastic
    sub-layer active) [forward] is a function of its input: a second call
    on the same input, directly after the first or after any other calls,
    gives the same result, tensor or error. *)
Theorem C8_forward_deterministic (inv : LSTM_t -> Prop) (self : CharLSTM P)
    (calls : list (list tens)) (ws : list tens) :
  (forall s x, inv s -> inv (fst (rnn_call s x))) ->
  frozen inv ->
  inv (rnn self) ->
  snd (forward (fst (forward self ws)) ws) = snd (forward self ws) /\
  snd (forward (forwards self calls) ws) = snd (forward self ws).
Proof.
  intros Hnext Hfrozen Hinv. split; symmetry.
  - destruct (forward_keeps inv Hnext Hfrozen self ws Hinv) as [Hi Ha].
    now apply (forward_agree inv Hnext Hfrozen).
  - destruct (forwards_keeps inv Hnext Hfrozen calls self Hinv) as [Hi Ha].
    now apply (forward_agree inv Hnext Hfrozen).
Qed.


End Rows.

(** ** The per-word transformation *)

Section PerWord.

Context {P : RecurrentPrimitive}.

Local Abbreviation tens := (tensor scalar).

(** Removing the batch dimension alone, or every dimension of size one,
    flattens to the same vector. *)
Lemma flat_state (h : tens) (states hidden : nat) :
  shape h = [states; 1; hidden] ->
  shape (squeeze1 h) = [states; hidden] /\
  view_flat (squeeze h) = view_flat (squeeze1 h) /\
  view_flat (squeeze1 h) = mkTensor [states * hidden] (data h).
Proof.
  intros Hsh. rewrite view_flat_squeeze. unfold squeeze1, view_flat.
  rewrite Hsh. simpl. repeat split; f_equal; f_equal; lia.
Qed.

Lemma after_words_inv (inv : LSTM_t -> Prop) :
  (forall s x, inv s -> inv (fst (rnn_call s x))) ->
  forall ws s, inv s -> inv (after_words s ws).
Proof.
  intros Hnext ws. induction ws as [|w ws IH]; intros s Hs; simpl; auto.
Qed.

(** C9: for each valid word the loop body hands the word, with a leading
    batch dimension of one, to the primitive, drops the output sequence,
    takes the final hidden state [[(layers * directions) x 1 x hidden_size]],
    and flattens it, as removing the batch dimension and flattening does,
    into [output_size] entries in the primitive's own order; row [i] of the
    result is exactly that vector for word [i]. *)
Theorem C9_row_is_final_hidden_state (inv : LSTM_t -> Prop) (nc hs : Z)
    (bi : bool) (ly : Z) (dr : Q) (self : CharLSTM P) (ws : list tens)
    (d : tens) :
  init nc hs bi ly dr = inr self ->
  (1 <= ly)%Z -> (1 <= hs)%Z ->
  serves inv (n_chars self) (Z.to_nat (ly * directions bi)) (Z.to_nat hs) ->
  inv (rnn self) ->
  ws <> [] ->
  Forall (fun w => valid_word (n_chars self) w = true) ws ->
  exists t,
    snd (forward self ws) = inr t /\
    forall i, i < length ws ->
      let s := after_words (rnn self) (firstn i ws) in
      let w := nth i ws d in
      exists out h c,
        shape (unsqueeze0 w) = 1 :: shape w /\
        snd (rnn_call s (unsqueeze0 w)) = inr (out, (h, c)) /\
        shape h = [Z.to_nat (ly * directions bi); 1; Z.to_nat hs] /\
        shape (squeeze1 h) = [Z.to_nat (ly * directions bi); Z.to_nat hs] /\
        view_flat (squeeze h) = view_flat (squeeze1 h) /\
        shape (view_flat (squeeze1 h)) = [Z.to_nat (output_size self)] /\
        length (data (view_flat (squeeze1 h))) = Z.to_nat (output_size self) /\
        snd (encode_word w s) = inr (unsqueeze0 (view_flat (squeeze h))) /\
        row t i = data (view_flat (squeeze1 h)).
Proof.
  intros Hinit Hl Hh Hserves Hinv Hne Hall.
  destruct (init_inr _ _ _ _ _ _ Hinit) as (_ & Hout & _).
  rewrite Hout, output_size_states by assumption.
  set (S := Z.to_nat (ly * directions bi)) in *.
  set (H := Z.to_nat hs) in *.
  destruct (for_words_serves inv _ S H Hserves ws _ Hinv Hall)
    as (_ & _ & Hrows & Hcount).
  rewrite (forward_serves inv _ S H Hserves self ws Hinv Hne Hall).
  cbn [snd].
  eexists. split; [reflexivity|]. intros i Hi.
  set (s := after_words (rnn self) (firstn i ws)).
  set (w := nth i ws d).
  assert (Hs : inv s)
    by (apply after_words_inv; [exact (serves_keeps _ _ _ _ Hserves)|exact Hinv]).
  assert (Hw : valid_word (n_chars self) w = true).
  { eapply Forall_forall in Hall; [exact Hall|]. now apply nth_In. }
  pose proof Hserves as [_ Hword].
  destruct (Hword s w Hs Hw) as (out & h & c & Hcall & Hsh & Hwf).
  destruct (flat_state h S H Hsh) as (Hsq & Hflat & Hvec).
  exists out, h, c.
  rewrite encode_word_eq, Hcall, Hflat, Hvec. simpl.
  unfold wf in Hwf. rewrite Hsh in Hwf. simpl in Hwf.
  repeat split; try assumption.
  - lia.
  - rewrite Hsh. replace (numel [S; 1; H]) with (S * H) by (simpl; lia).
    reflexivity.
  - rewrite row_concat by (try assumption; lia).
    rewrite (nth_trace d) by assumption.
    fold s w. unfold row_of, h_n. now rewrite Hcall.
Qed.

End PerWord.

(** ** What the encoder does not check *)

Section Unchecked.

Context {P : RecurrentPrimitive}.

Local Abbreviation tens := (tensor scalar).

(** When the primitive rejects a feature width, the loop ends on an error
    of the primitive. *)
Lemma for_words_rejects (inv : LSTM_t -> Prop) (n : Z) :
  (forall s x, inv s -> inv (fst (rnn_call s x))) ->
  rejects_width inv n ->
  forall ws acc s w len width,
    inv s -> In w ws -> shape w = [len; width] -> Z.of_nat width <> n ->
    exists e, snd (for_words ws acc s) = inl (RnnError e).
Proof.
  intros Hnext Hrej ws.
  induction ws as [|a ws IH]; intros acc s w len width Hs Hin Hsh Hne;
    [contradiction|].
  rewrite for_words_cons, encode_word_eq.
  destruct Hin as [->|Hin].
  - destruct (Hrej s w len width Hs Hsh Hne) as [e ->]. now exists e.
  - destruct (snd (rnn_call s (unsqueeze0 a))) as [e|[out [h c]]].
    + now exists e.
    + eapply IH; eauto.
Qed.

(** C4: the constructor checks no range itself and has no
    configuration error of its own: it fails exactly when the constructor
    of the recurrent primitive fails on the same arguments, with that
    error, and otherwise succeeds and stores [n_chars] and [output_size];
    so it succeeds for in-range hyperparameters whenever the primitive
    accepts them. *)
Theorem C4_init_delegates (n_chars hidden_size : Z) (bidirectional : bool)
    (layers : Z) (dropout : Q) :
  (forall e,
     init n_chars hidden_size bidirectional layers dropout = inl e <->
     exists pe,
       LSTM n_chars hidden_size layers true dropout bidirectional = inl pe /\
       e = RnnError pe) /\
  (forall self,
     init n_chars hidden_size bidirectional layers dropout = inr self <->
     exists r,
       LSTM n_chars hidden_size layers true dropout bidirectional = inr r /\
       self = mkCharLSTM n_chars
                (layers * hidden_size * directions bidirectional)%Z r).
Proof.
  unfold init.
  destruct (LSTM n_chars hidden_size layers true dropout bidirectional)
    as [pe|r]; split.
  - intros e. split.
    + intros [= <-]. now exists pe.
    + intros (pe' & [= <-] & ->). reflexivity.
  - intros self. split; [discriminate|]. intros (r & Hr & _). discriminate.
  - intros e. split; [discriminate|]. intros (pe & Hpe & _). discriminate.
  - intros self.
    assert (Hsize : (if bidirectional then (layers * hidden_size * 2)%Z
                     else (layers * hidden_size)%Z)
                    = (layers * hidden_size * directions bidirectional)%Z)
      by (unfold directions; destruct bidirectional; lia).
    rewrite Hsize. split.
    + intros [= <-]. now exists r.
    + intros (r' & [= <-] & ->). reflexivity.
Qed.

(** What every call of the primitive preserves, the loop preserves. *)
Lemma for_words_preserves (X : Type) (obs : LSTM_t -> X)
    (inv : LSTM_t -> Prop) :
  (forall s x, inv s -> inv (fst (rnn_call s x))) ->
  (forall s x, inv s -> obs (fst (rnn_call s x)) = obs s) ->
  forall ws acc s, inv s -> obs (fst (for_words ws acc s)) = obs s.
Proof.
  intros Hnext Hobs ws.
  induction ws as [|w ws IH]; intros acc s Hs; [reflexivity|].
  rewrite for_words_cons, encode_word_eq.
  destruct (snd (rnn_call s (unsqueeze0 w))) as [e|[out [h c]]].
  - simpl. now apply Hobs.
  - rewrite IH by now apply Hnext. now apply Hobs.
Qed.

End Unchecked.

(** ** The encoder over the two small primitives *)

Section ToyFacts.

Import Toy.

Variable chk : bool.
Variables nc hs ly : Z.
Variable bi : bool.

Lemma toy_call_fst (m : toy_lstm) (x : tensor Z) :
  fst (toy_call m x) =
  mkToy (input_size m) (hidden_size m) (num_states m) (checks m) (S (calls m)).
Proof.
  unfold toy_call.
  destruct (if checks m then toy_check m x else None); reflexivity.
Qed.

Lemma toy_next (m : toy_lstm) (x : tensor Z) :
  built chk nc hs ly bi m -> built chk nc hs ly bi (fst (toy_call m x)).
Proof. rewrite toy_call_fst. unfold built. simpl. tauto. Qed.

Lemma toy_hidden_wf (m : toy_lstm) (x : tensor Z) : wf (toy_hidden m x).
Proof.
  unfold wf, toy_hidden. simpl. rewrite length_map, length_seq. lia.
Qed.

(** Both primitives keep the contract on valid words. *)
Lemma toy_serves :
  serves (P := prim chk) (built chk nc hs ly bi) nc
    (Z.to_nat (ly * directions bi)) (Z.to_nat hs).
Proof.
  split.
  - intros s x. apply toy_next.
  - intros s w (Hin & Hhid & Hst & Hchk) Hw. simpl in *.
    revert Hw. unfold valid_word. cbn [scalar prim].
    destruct (shape w) as [|len [|width [|]]] eqn:Hsh; try discriminate.
    intros Hw. apply andb_prop in Hw. destruct Hw as [Hw _].
    apply andb_prop in Hw. destruct Hw as [Hlen Hwidth].
    apply Nat.leb_le in Hlen. apply Z.eqb_eq in Hwidth.
    exists (unsqueeze0 w), (toy_hidden s (unsqueeze0 w)), (toy_cell s).
    split; [|split].
    + unfold toy_call, toy_check. simpl. rewrite Hsh, Hin, Hwidth.
      rewrite Z.eqb_refl. simpl.
      destruct len; [lia|]. simpl. now destruct (checks s).
    + unfold toy_hidden. simpl. now rewrite Hhid, Hst.
    + apply toy_hidden_wf.
Qed.

(** Their results do not depend on the calls made before. *)
Lemma toy_frozen : frozen (P := prim chk) (built chk nc hs ly bi).
Proof.
  intros s x y _. cbn [scalar prim rnn_call LSTM_t] in *. rewrite toy_call_fst.
  destruct s as [i h n c k].
  unfold toy_call, toy_check, toy_hidden, toy_cell. simpl.
  destruct c; [|reflexivity].
  destruct (shape y) as [|d0 [|d1 [|d2 [|]]]]; try reflexivity.
  destruct (negb (Z.of_nat d2 =? i)%Z); [reflexivity|].
  destruct (Nat.eqb d1 0); reflexivity.
Qed.

End ToyFacts.

(** The checking primitive rejects a feature width other than its own. *)
Lemma toy_rejects (nc hs ly : Z) (bi : bool) :
  rejects_width (P := Toy.strict) (Toy.built true nc hs ly bi) nc.
Proof.
  intros s w len width (Hin & _ & _ & Hchk) Hsh Hne. simpl in *.
  exists Toy.InputSizeMismatch.
  unfold Toy.toy_call, Toy.toy_check. simpl. rewrite Hchk, Hsh, Hin.
  destruct (Z.eqb_spec (Z.of_nat width) nc); [contradiction|reflexivity].
Qed.

Lemma toy_parameters_kept (s : Toy.toy_lstm) (x : tensor Z) :
  Toy.built true 5 3 1 true s ->
  Toy.toy_parameters (fst (Toy.toy_call s x)) = Toy.toy_parameters s.
Proof. intros _. now rewrite toy_call_fst. Qed.

Lemma toy_built (chk : bool) :
  Toy.built chk 5 3 1 true (rnn (Toy.encoder chk)).
Proof. unfold Toy.built. simpl. repeat split. Qed.

Lemma two_words_valid (chk : bool) :
  Forall (fun w => valid_word (P := Toy.prim chk) 5 w = true) Toy.two_words.
Proof. repeat constructor. Qed.


(** ** The encoder run on concrete words *)

(** [CharLSTM(5, 3)] stores [output_size = 6] and keeps it. *)
Lemma C1_output_size_witness :
  output_size (Toy.encoder false) = 6%Z /\
  (forall inputs,
     output_size (fst (forward (Toy.encoder false) inputs))
     = output_size (Toy.encoder false)) /\
  (forall calls,
     output_size (forwards (Toy.encoder false) calls)
     = output_size (Toy.encoder false)).
Proof.
  exact (C1_output_size (P := Toy.loose) 5 3 true 1 0 (Toy.encoder false)
           eq_refl).
Defined.

(** Two words of lengths four and one give a [[2 x 6]] result. *)
Lemma C3_forward_shape_witness :
  (Toy.two_words <> [] ->
   exists t,
     snd (forward (Toy.encoder true) Toy.two_words) = inr t /\
     shape t = [2; 6] /\
     wf t /\
     length (rows t) = 2 /\
     forall i, i < 2 ->
       length (row t i) = 6 /\
       nth i (rows t) [] = row t i /\
       row t i = row_of (after_words (rnn (Toy.encoder true))
                           (firstn i Toy.two_words))
                   (nth i Toy.two_words (mkTensor [] []))) /\
  (Toy.two_words = [] ->
   snd (forward (Toy.encoder true) Toy.two_words)
   = inl (CatError CatEmptyList)).
Proof.
  exact (C3_forward_shape (P := Toy.strict) (Toy.built true 5 3 1 true)
           5 3 true 1 0 (Toy.encoder true) Toy.two_words (mkTensor [] [])
           eq_refl ltac:(lia) ltac:(lia)
           (toy_serves true 5 3 1 true) (toy_built true)
           (two_words_valid true)).
Defined.

(** Over the primitive that checks its configuration (the hidden size,
    the number of layers, a dropout within [[0, 1]]), the construction
    with [n_chars = 0] is not refused, nor is the one with a dropout
    of 1. *)
Lemma C4_counterexample :
  init (P := Toy.strict) 0 3 true 1 0
  = inr (mkCharLSTM (P := Toy.strict) 0 6 (Toy.mkToy 0 3 2 true 0)) /\
  init (P := Toy.strict) 5 3 true 2 1
  = inr (mkCharLSTM (P := Toy.strict) 5 12 (Toy.mkToy 5 3 4 true 0)) /\
  ~ (forall (nc hs : Z) (bi : bool) (ly : Z) (dr : Q),
       (nc <= 0)%Z \/ (hs <= 0)%Z \/ (ly < 1)%Z \/ ~ (0 <= dr /\ dr < 1)%Q ->
       exists e, init (P := Toy.strict) nc hs bi ly dr = inl e).
Proof.
  split; [reflexivity|]. split; [reflexivity|].
  intros Hall.
  destruct (Hall 0%Z 3%Z true 1%Z 0%Q) as [e He]; [left; lia|].
  discriminate He.
Qed.

(** The width check is the primitive's, not the encoder's: over the
    primitive that checks nothing, a word of width four given to
    [CharLSTM(5, 3)] comes back as a row. *)
Lemma unchecked_width_example :
  snd (forward (Toy.encoder false) [Toy.const_word 2 4 7])
  = inr (mkTensor [1; 6] [56; 57; 58; 59; 60; 61]%Z).
Proof. reflexivity. Qed.

(** A word of length zero given to [CharLSTM(5, 3)]: the primitive is
    called on it, once, and the outcome is the primitive's.  Over the
    primitive that checks nothing the result is its answer, not a zero
    vector; over the one that checks the length the error is its own. *)
Lemma C6_counterexample :
  shape (Toy.const_word 0 5 1) = [0; 5] /\
  forward (Toy.encoder false) [Toy.const_word 0 5 1]
  = (mkCharLSTM (P := Toy.loose) 5 6 (Toy.mkToy 5 3 2 false 1),
     inr (mkTensor [1; 6] [0; 1; 2; 3; 4; 5]%Z)) /\
  forward (Toy.encoder true) [Toy.const_word 0 5 1]
  = (mkCharLSTM (P := Toy.strict) 5 6 (Toy.mkToy 5 3 2 true 1),
     inl (RnnError (P := Toy.strict) Toy.EmptySequence)).
Proof. repeat split. Qed.


(** A second call on the two words, the module having counted the calls
    of the first, gives the same result. *)
Lemma C8_forward_deterministic_witness :
  snd (forward (fst (forward (Toy.encoder true) Toy.two_words)) Toy.two_words)
  = snd (forward (Toy.encoder true) Toy.two_words) /\
  snd (forward (forwards (Toy.encoder true) [Toy.swapped_words; []])
         Toy.two_words)
  = snd (forward (Toy.encoder true) Toy.two_words).
Proof.
  exact (C8_forward_deterministic (P := Toy.strict)
           (Toy.built true 5 3 1 true) (Toy.encoder true)
           [Toy.swapped_words; []] Toy.two_words
           (toy_next true 5 3 1 true) (toy_frozen true 5 3 1 true)
           (toy_built true)).
Defined.

(** Each of the two rows is the flattened [[2 x 1 x 3]] final hidden
    state of its word. *)
Lemma C9_row_is_final_hidden_state_witness :
  exists t,
    snd (forward (Toy.encoder true) Toy.two_words) = inr t /\
    forall i, i < 2 ->
      let s := after_words (P := Toy.strict) (rnn (Toy.encoder true))
                 (firstn i Toy.two_words) in
      let w := nth i Toy.two_words (mkTensor [] []) in
      exists out h c,
        shape (unsqueeze0 w) = 1 :: shape w /\
        snd (rnn_call (RecurrentPrimitive := Toy.strict) s (unsqueeze0 w))
        = inr (out, (h, c)) /\
        shape h = [2; 1; 3] /\
        shape (squeeze1 h) = [2; 3] /\
        view_flat (squeeze h) = view_flat (squeeze1 h) /\
        shape (view_flat (squeeze1 h)) = [6] /\
        length (data (view_flat (squeeze1 h))) = 6 /\
        snd (encode_word (P := Toy.strict) w s)
        = inr (unsqueeze0 (view_flat (squeeze h))) /\
        row t i = data (view_flat (squeeze1 h)).
Proof.
  exact (C9_row_is_final_hidden_state (P := Toy.strict)
           (Toy.built true 5 3 1 true) 5 3 true 1 0 (Toy.encoder true)
           Toy.two_words (mkTensor [] [])
           eq_refl ltac:(lia) ltac:(lia)
           (toy_serves true 5 3 1 true) (toy_built true)
           ltac:(discriminate) (two_words_valid true)).
Defined.


(** ** [forward] over an arbitrary primitive

    Nothing is asked of the primitive here: the facts below hold whatever
    it returns or raises. *)

Section AnyPrimitive.

Context {P : RecurrentPrimitive}.

Local Abbreviation tens := (tensor scalar).

(** The loop is the calls to the primitive, each state turned into a
    row. *)
Lemma for_words_calls (ws : list tens) :
  forall s,
    for_words ws [] s =
    (fst (rnn_calls s ws),
     match snd (rnn_calls s ws) with
     | inl e => inl (RnnError e)
     | inr hs => inr (map as_row hs)
     end).
Proof.
  induction ws as [|w ws IH]; intros s; [reflexivity|].
  rewrite for_words_cons, encode_word_eq. cbn [rnn_calls].
  destruct (rnn_call s (unsqueeze0 w)) as [s' [e|[out [h c]]]]; cbn [fst snd];
    [reflexivity|].
  rewrite for_words_acc, IH.
  destruct (rnn_calls s' ws) as [s'' [e|hs]]; reflexivity.
Qed.

Lemma rnn_calls_inr (ws : list tens) :
  forall s hs,
    snd (rnn_calls s ws) = inr hs ->
    fst (rnn_calls s ws) = after_words s ws /\ length hs = length ws.
Proof.
  induction ws as [|w ws IH]; intros s hs; cbn [rnn_calls after_words].
  - intros [= <-]. split; reflexivity.
  - destruct (rnn_call s (unsqueeze0 w)) as [s' [e|[out [h c]]]]; cbn [fst snd];
      [discriminate|].
    specialize (IH s').
    destruct (rnn_calls s' ws) as [s'' [e|hl]]; cbn [fst snd] in *;
      [discriminate|].
    intros [= <-]. destruct (IH hl eq_refl) as [-> Hlen].
    split; [reflexivity|]. simpl. now rewrite Hlen.
Qed.

Lemma rnn_calls_app (xs ys : list tens) :
  forall s,
    rnn_calls s (xs ++ ys) =
    match rnn_calls s xs with
    | (s', inl e) => (s', inl e)
    | (s', inr hx) =>
        match rnn_calls s' ys with
        | (s'', inl e) => (s'', inl e)
        | (s'', inr hy) => (s'', inr (hx ++ hy))
        end
    end.
Proof.
  induction xs as [|x xs IH]; intros s.
  - simpl. destruct (rnn_calls s ys) as [s'' [e|hy]]; reflexivity.
  - cbn [app rnn_calls].
    destruct (rnn_call s (unsqueeze0 x)) as [s' [e|[out [h c]]]];
      [reflexivity|].
    rewrite IH.
    destruct (rnn_calls s' xs) as [s1 [e|hx]]; [reflexivity|].
    destruct (rnn_calls s1 ys) as [s2 [e|hy]]; reflexivity.
Qed.

(** The first call that raises, and the words before it. *)
Lemma rnn_calls_inl (ws : list tens) :
  forall s e,
    snd (rnn_calls s ws) = inl e <->
    exists pre w post,
      ws = pre ++ w :: post /\
      (exists hs, snd (rnn_calls s pre) = inr hs) /\
      snd (rnn_call (after_words s pre) (unsqueeze0 w)) = inl e.
Proof.
  induction ws as [|w ws IH]; intros s e.
  - split; [discriminate|].
    intros (pre & w & post & Heq & _). destruct pre; discriminate.
  - cbn [rnn_calls]. split.
    + destruct (rnn_call s (unsqueeze0 w)) as [s' [e'|[out [h c]]]] eqn:Hcall;
        cbn [snd].
      * intros [= ->]. exists [], w, ws. simpl. rewrite Hcall.
        repeat split. now exists [].
      * specialize (IH s' e).
        destruct (rnn_calls s' ws) as [s'' [e'|hl]] eqn:Hrest; cbn [snd] in *;
          [|discriminate].
        intros [= ->]. destruct IH as [IH _].
        destruct (IH eq_refl) as (pre & w' & post & -> & [hs Hpre] & Hw').
        exists (w :: pre), w', post. cbn [app rnn_calls after_words].
        rewrite Hcall. cbn [fst].
        destruct (rnn_calls s' pre) as [s1 [e1|h1]]; cbn [snd] in *;
          [discriminate|].
        repeat split; [now eexists|exact Hw'].
    + intros (pre & w' & post & Heq & [hs Hpre] & Hw').
      destruct pre as [|p pre]; simpl in Heq; injection Heq as <- ->.
      * simpl in Hw'.
        destruct (rnn_call s (unsqueeze0 w)) as [s' [e'|[out [h c]]]];
          cbn [snd] in *; [now injection Hw' as ->|discriminate].
      * cbn [rnn_calls after_words] in Hpre, Hw'.
        destruct (rnn_call s (unsqueeze0 w)) as [s' [e'|[out [h c]]]];
          cbn [fst snd] in *; [discriminate|].
        assert (Hrest : snd (rnn_calls s' (pre ++ w' :: post)) = inl e).
        { apply IH. exists pre, w', post. repeat split; [|exact Hw'].
          destruct (rnn_calls s' pre) as [s1 [e1|h1]]; cbn [snd] in *;
            [discriminate|now eexists]. }
        destruct (rnn_calls s' (pre ++ w' :: post)) as [s2 [e2|h2]];
          cbn [snd] in *; [exact Hrest|discriminate].
Qed.

Lemma filter_keeps_two_dim (A : Type) (ts : list (tensor A)) :
  Forall (fun t => exists n m, shape t = [n; m]) ts ->
  filter (fun t => negb (is_legacy_empty t)) ts = ts.
Proof.
  induction 1 as [|t ts (n & m & Ht) _ IH]; simpl; [reflexivity|].
  unfold is_legacy_empty at 1. rewrite Ht.
  destruct n; simpl; now rewrite IH.
Qed.

Lemma filter_as_rows (hs : list tens) :
  filter (fun t => negb (is_legacy_empty t)) (map as_row hs) = map as_row hs.
Proof.
  apply filter_keeps_two_dim.
  induction hs as [|h hs IH]; simpl; constructor; [|exact IH].
  now exists 1, (numel (shape h)).
Qed.

Lemma heads_as_rows (hs : list tens) :
  fold_right Nat.add 0 (map (fun u => head_dim (shape u)) (map as_row hs))
  = length hs.
Proof. induction hs as [|h hs IH]; simpl; [reflexivity|now rewrite IH]. Qed.

Lemma tails_as_rows (h : tens) (hs : list tens) :
  forallb (fun u => same_tail [numel (shape h)] (shape u)) (map as_row hs)
  = same_numel h hs.
Proof.
  unfold same_numel. induction hs as [|h' hs IH]; simpl; [reflexivity|].
  now rewrite IH, andb_true_r.
Qed.

Lemma data_as_rows (hs : list tens) :
  map (@data scalar) (map as_row hs) = map (@data scalar) hs.
Proof. rewrite map_map. reflexivity. Qed.

(** [torch.cat] on the rows of the loop: it stacks them when the states
    have equally many entries and refuses them otherwise. *)
Lemma cat0_as_rows (h : tens) (hs : list tens) :
  cat0 (map as_row (h :: hs)) =
  if same_numel h hs
  then inr (mkTensor [S (length hs); numel (shape h)]
              (concat (map (@data scalar) (h :: hs))))
  else inl CatSizeMismatch.
Proof.
  unfold cat0. rewrite filter_as_rows. cbn [map shape as_row].
  rewrite tails_as_rows.
  destruct (same_numel h hs); [|reflexivity].
  cbn [fold_right head_dim]. rewrite heads_as_rows.
  cbn [data]. now rewrite data_as_rows.
Qed.

(** [forward] in terms of the calls alone. *)
Lemma forward_calls (self : CharLSTM P) (ws : list tens) :
  forward self ws =
  (mkCharLSTM (n_chars self) (output_size self)
     (fst (rnn_calls (rnn self) ws)),
   match snd (rnn_calls (rnn self) ws) with
   | inl e => inl (RnnError e)
   | inr [] => inl (CatError CatEmptyList)
   | inr (h :: hs) =>
       if same_numel h hs
       then inr (mkTensor [length ws; numel (shape h)]
                   (concat (map (@data scalar) (h :: hs))))
       else inl (CatError CatSizeMismatch)
   end).
Proof.
  rewrite forward_eq, for_words_calls. cbn [fst snd].
  destruct (snd (rnn_calls (rnn self) ws)) as [e|[|h hs]] eqn:Hcalls;
    [reflexivity|reflexivity|].
  destruct (rnn_calls_inr ws _ _ Hcalls) as [_ Hlen].
  rewrite cat0_as_rows. simpl in Hlen. rewrite Hlen.
  destruct (same_numel h hs); reflexivity.
Qed.

Lemma rnn_calls_stop (pre post : list tens) (w : tens) (s : LSTM_t)
    (hs : list tens) (e : rnn_error) :
  snd (rnn_calls s pre) = inr hs ->
  snd (rnn_call (after_words s pre) (unsqueeze0 w)) = inl e ->
  rnn_calls s (pre ++ w :: post) =
  (fst (rnn_call (after_words s pre) (unsqueeze0 w)), inl e).
Proof.
  intros Hpre Hw. rewrite rnn_calls_app.
  destruct (rnn_calls_inr pre s hs Hpre) as [Hst _].
  destruct (rnn_calls s pre) as [s1 [e1|h1]]; cbn [fst snd] in *;
    [discriminate|].
  subst s1. cbn [rnn_calls].
  destruct (rnn_call (after_words s pre) (unsqueeze0 w))
    as [s' [e'|[out [h c]]]]; cbn [fst snd] in *; [|discriminate].
  now injection Hw as ->.
Qed.

Lemma same_numel_app (h : tens) (xs ys : list tens) :
  same_numel h (xs ++ ys) = same_numel h xs && same_numel h ys.
Proof. unfold same_numel. apply forallb_app. Qed.

Lemma same_numel_eq (h h' : tens) (hs : list tens) :
  numel (shape h) = numel (shape h') -> same_numel h hs = same_numel h' hs.
Proof. intros Heq. unfold same_numel. now rewrite Heq. Qed.

Lemma cat0_two (A : Type) (a b : tensor A) (n1 n2 k1 k2 : nat) :
  shape a = [n1; k1] -> shape b = [n2; k2] ->
  cat0 [a; b] =
  if Nat.eqb k1 k2
  then inr (mkTensor [n1 + n2; k1] (data a ++ data b))
  else inl CatSizeMismatch.
Proof.
  intros Ha Hb. unfold cat0.
  rewrite (filter_keeps_two_dim A [a; b])
    by (repeat constructor; eauto).
  rewrite Ha. cbn [forallb same_tail shape_eqb]. rewrite Hb.
  cbn [same_tail shape_eqb]. rewrite !andb_true_r.
  destruct (Nat.eqb k1 k2); [|reflexivity].
  cbn [map fold_right head_dim concat]. rewrite Ha, Hb. cbn [head_dim].
  now rewrite Nat.add_0_r, app_nil_r.
Qed.

(** A row of a tensor that fills its shape is a row of any tensor that
    continues it. *)
Lemma row_of_prefix (A : Type) (n n' k : nat) (da rest : list A) (i : nat) :
  length da = n * k -> i < n ->
  row (mkTensor [n'; k] (da ++ rest)) i = row (mkTensor [n; k] da) i.
Proof.
  intros Hlen Hi. unfold row. cbn [shape data nth].
  assert (Hle : i * k + k <= length da) by nia.
  rewrite skipn_app.
  replace (i * k - length da) with 0 by lia. cbn [skipn].
  rewrite firstn_app, length_skipn.
  replace (k - (length da - i * k)) with 0 by lia.
  cbn [firstn]. now rewrite app_nil_r.
Qed.

(** Of the errors of [torch.cat], [forward] raises the one for an empty
    list exactly on the empty list of words, and the one for a tensor
    without dimensions never: every row it stacks has two. *)
Theorem forward_cat_errors (self : CharLSTM P) (ws : list tens) :
  (snd (forward self ws) = inl (CatError CatEmptyList) <-> ws = []) /\
  snd (forward self ws) <> inl (CatError CatZeroDim).
Proof.
  rewrite forward_calls. cbn [snd].
  destruct (snd (rnn_calls (rnn self) ws)) as [e|[|h hs]] eqn:Hcalls.
  - split; [|discriminate]. split; [discriminate|].
    intros ->. discriminate Hcalls.
  - destruct (rnn_calls_inr ws _ _ Hcalls) as [_ Hlen].
    split; [|discriminate]. split; [|reflexivity].
    intros _. destruct ws; [reflexivity|discriminate Hlen].
  - destruct (rnn_calls_inr ws _ _ Hcalls) as [_ Hlen].
    destruct (same_numel h hs); (split; [|discriminate]);
      (split; [discriminate|]); intros ->; discriminate Hlen.
Qed.

Lemma forward_inr (self : CharLSTM P) (ws : list tens) (t : tens) :
  snd (forward self ws) = inr t <->
  exists h hs,
    snd (rnn_calls (rnn self) ws) = inr (h :: hs) /\
    same_numel h hs = true /\
    t = mkTensor [length ws; numel (shape h)]
          (concat (map (@data scalar) (h :: hs))).
Proof.
  rewrite forward_calls. cbn [snd].
  destruct (snd (rnn_calls (rnn self) ws)) as [e|[|h hs]].
  - split; [discriminate|]. intros (h & hs & Hc & _). discriminate.
  - split; [discriminate|]. intros (h & hs & Hc & _). discriminate.
  - destruct (same_numel h hs) eqn:Hsame.
    + split.
      * intros [= <-]. exists h, hs. repeat split. exact Hsame.
      * intros (h' & hs' & [= <- <-] & _ & ->). reflexivity.
    + split; [discriminate|].
      intros (h' & hs' & [= <- <-] & Hs & _). congruence.
Qed.


(** [forward] returns a tensor exactly when the list is not empty, every
    call of the primitive returns, and the final hidden states all have
    equally many entries; the tensor then has one row per word, as wide as
    a state has entries, and holds the entries of the states in input
    order. *)
Theorem forward_returns_iff (self : CharLSTM P) (ws : list tens) (t : tens) :
  snd (forward self ws) = inr t <->
  exists h hs,
    snd (rnn_calls (rnn self) ws) = inr (h :: hs) /\
    same_numel h hs = true /\
    t = mkTensor [length ws; numel (shape h)]
          (concat (map (@data scalar) (h :: hs))).
Proof.
  rewrite forward_calls. cbn [snd].
  destruct (snd (rnn_calls (rnn self) ws)) as [e|[|h hs]].
  - split; [discriminate|]. intros (h & hs & Hc & _). discriminate.
  - split; [discriminate|]. intros (h & hs & Hc & _). discriminate.
  - destruct (same_numel h hs) eqn:Hsame.
    + split.
      * intros [= <-]. exists h, hs. repeat split. exact Hsame.
      * intros (h' & hs' & [= <- <-] & _ & ->). reflexivity.
    + split; [discriminate|].
      intros (h' & hs' & [= <- <-] & Hs & _). congruence.
Qed.

(** [forward] raises the size error of [torch.cat] exactly when every call
    of the primitive returns and some final hidden state has another
    number of entries than the first. *)
Theorem forward_size_mismatch_iff (self : CharLSTM P) (ws : list tens) :
  snd (forward self ws) = inl (CatError CatSizeMismatch) <->
  exists h hs,
    snd (rnn_calls (rnn self) ws) = inr (h :: hs) /\
    same_numel h hs = false.
Proof.
  rewrite forward_calls. cbn [snd].
  destruct (snd (rnn_calls (rnn self) ws)) as [e|[|h hs]].
  - split; [discriminate|]. intros (h & hs & Hc & _). discriminate.
  - split; [discriminate|]. intros (h & hs & Hc & _). discriminate.
  - destruct (same_numel h hs) eqn:Hsame.
    + split; [discriminate|].
      intros (h' & hs' & [= <- <-] & Hs). congruence.
    + split; [|reflexivity]. intros _. exists h, hs. now split.
Qed.

Lemma forward_inl_rnn (self : CharLSTM P) (ws : list tens)
    (e : rnn_error) :
  snd (forward self ws) = inl (RnnError e) <->
  exists pre w post,
    ws = pre ++ w :: post /\
    (exists hs, snd (rnn_calls (rnn self) pre) = inr hs) /\
    snd (rnn_call (after_words (rnn self) pre) (unsqueeze0 w)) = inl e.
Proof.
  rewrite <- rnn_calls_inl, forward_calls. cbn [snd].
  destruct (snd (rnn_calls (rnn self) ws)) as [e'|[|h hs]].
  - split; intros [= ->]; reflexivity.
  - split; discriminate.
  - destruct (same_numel h hs); split; discriminate.
Qed.


(** [forward] raises an error of the primitive exactly when the primitive
    raises it on some word after returning on all the words before. *)
Theorem forward_rnn_error_iff (self : CharLSTM P) (ws : list tens)
    (e : rnn_error) :
  snd (forward self ws) = inl (RnnError e) <->
  exists pre w post,
    ws = pre ++ w :: post /\
    (exists hs, snd (rnn_calls (rnn self) pre) = inr hs) /\
    snd (rnn_call (after_words (rnn self) pre) (unsqueeze0 w)) = inl e.
Proof.
  rewrite <- rnn_calls_inl, forward_calls. cbn [snd].
  destruct (snd (rnn_calls (rnn self) ws)) as [e'|[|h hs]].
  - split; intros [= ->]; reflexivity.
  - split; discriminate.
  - destruct (same_numel h hs); split; discriminate.
Qed.

(** [forward] stops at the first word on which the primitive raises: the
    words after it are not given to the primitive and change neither the
    error nor the module, and [torch.cat] is not reached, whatever the
    states of the words before. *)
Theorem forward_stops_at_first_error (self : CharLSTM P)
    (pre post : list tens) (w : tens) (hs : list tens) (e : rnn_error) :
  snd (rnn_calls (rnn self) pre) = inr hs ->
  snd (rnn_call (after_words (rnn self) pre) (unsqueeze0 w)) = inl e ->
  forward self (pre ++ w :: post) =
  (mkCharLSTM (n_chars self) (output_size self)
     (fst (rnn_call (after_words (rnn self) pre) (unsqueeze0 w))),
   inl (RnnError e)) /\
  forward self (pre ++ w :: post) = forward self (pre ++ [w]).
Proof.
  intros Hpre Hw.
  rewrite !forward_calls.
  rewrite (rnn_calls_stop pre post w _ hs e Hpre Hw).
  rewrite (rnn_calls_stop pre [] w _ hs e Hpre Hw).
  split; reflexivity.
Qed.

(** Unless the primitive raises, a call of [forward] has called it once
    on each word, in input order, also when [torch.cat] then refuses the
    rows. *)
Theorem forward_calls_once_per_word (self : CharLSTM P) (ws : list tens) :
  (forall e, snd (forward self ws) <> inl (RnnError e)) ->
  rnn (fst (forward self ws)) = after_words (rnn self) ws.
Proof.
  intros Hno. rewrite forward_calls in *. cbn [fst snd rnn] in *.
  destruct (snd (rnn_calls (rnn self) ws)) as [e|hs] eqn:Hcalls.
  - now destruct (Hno e).
  - now destruct (rnn_calls_inr ws _ _ Hcalls).
Qed.

(** Two calls in a row, on [xs] and then on [ys], that both return: one
    call on [xs ++ ys] leaves the object as the two calls do, and gives
    what [torch.cat] gives for the two results, their rows stacked or its
    size error. *)
Theorem forward_in_two_calls (self : CharLSTM P) (xs ys : list tens)
    (a b : tens) :
  snd (forward self xs) = inr a ->
  snd (forward (fst (forward self xs)) ys) = inr b ->
  forward self (xs ++ ys) =
  (fst (forward (fst (forward self xs)) ys),
   match cat0 [a; b] with
   | inl c => inl (CatError c)
   | inr t => inr t
   end).
Proof.
  intros Ha Hb.
  apply forward_inr in Ha. destruct Ha as (h & hl & Hx & Hsx & ->).
  apply forward_inr in Hb. destruct Hb as (h' & hl' & Hy & Hsy & ->).
  rewrite (forward_calls (fst (forward self xs)) ys).
  rewrite (forward_calls self xs) in *. cbn [fst snd rnn n_chars output_size] in *.
  rewrite (forward_calls self (xs ++ ys)), rnn_calls_app.
  destruct (rnn_calls (rnn self) xs) as [s1 [e1|h1]]; cbn [fst snd] in *;
    [discriminate|].
  injection Hx as ->.
  destruct (rnn_calls s1 ys) as [s2 [e2|h2]]; cbn [fst snd] in *;
    [discriminate|].
  injection Hy as ->. cbn [app].
  rewrite (cat0_two _ _ _ (length xs) (length ys)
             (numel (shape h)) (numel (shape h'))) by reflexivity.
  rewrite same_numel_app, Hsx. cbn [same_numel forallb andb].
  fold (same_numel h hl').
  destruct (Nat.eqb_spec (numel (shape h)) (numel (shape h'))) as [Heq|Hne];
    [|reflexivity].
  rewrite (same_numel_eq h h' hl' Heq), Hsy. cbn [andb data].
  rewrite length_app. cbn [map concat].
  change (h' :: hl') with ([h'] ++ hl').
  rewrite !map_app, !concat_app. cbn [map concat].
  now rewrite !app_nil_r, <- !app_assoc.
Qed.

(** Words appended to a list do not change what the words before them
    give: when [forward] returns on [xs ++ ys], it returns on a non-empty
    [xs], with rows as wide, and its entries are the first entries of the
    longer result, row by row when they fill their shape. *)
Theorem forward_prefix (self : CharLSTM P) (xs ys : list tens) (c : tens) :
  xs <> [] ->
  snd (forward self (xs ++ ys)) = inr c ->
  exists a rest,
    snd (forward self xs) = inr a /\
    shape a = [length xs; nth 1 (shape c) 0] /\
    data c = data a ++ rest /\
    (wf a -> forall i, i < length xs -> row c i = row a i).
Proof.
  intros Hne Hc.
  apply forward_inr in Hc. destruct Hc as (h & hl & Hxy & Hs & ->).
  rewrite rnn_calls_app in Hxy.
  destruct (rnn_calls (rnn self) xs) as [s1 [e1|hx]] eqn:Hx; cbn [snd] in Hxy;
    [discriminate|].
  assert (Hlen : length hx = length xs)
    by (apply (rnn_calls_inr xs (rnn self)); now rewrite Hx).
  destruct (rnn_calls s1 ys) as [s2 [e2|hy]]; cbn [snd] in Hxy;
    [discriminate|].
  destruct hx as [|h0 hx]; [destruct xs; [congruence|discriminate]|].
  injection Hxy as <- <-.
  rewrite same_numel_app in Hs. apply andb_prop in Hs. destruct Hs as [Hsx _].
  exists (mkTensor [length xs; numel (shape h0)]
            (concat (map (@data scalar) (h0 :: hx)))),
         (concat (map (@data scalar) hy)).
  split; [|split; [|split]].
  - apply forward_inr. exists h0, hx. rewrite Hx. now repeat split.
  - reflexivity.
  - cbn [data map concat]. now rewrite map_app, concat_app, app_assoc.
  - intros Hwf i Hi. unfold wf in Hwf. cbn [shape data numel fold_right] in Hwf.
    cbn [map concat]. rewrite map_app, concat_app, app_assoc.
    apply row_of_prefix; [|exact Hi].
    cbn [map concat] in Hwf. rewrite Hwf. lia.
Qed.

End AnyPrimitive.

(** ** Errors of the primitive under its contract *)

Section Blame.

Context {P : RecurrentPrimitive}.

Local Abbreviation tens := (tensor scalar).

(** With a primitive that keeps its contract, an error of the primitive
    out of [forward] points at a word that is not a valid word matrix: the
    first word on which the primitive raised, having returned on every
    word before it. *)
Theorem forward_error_blames_word (inv : LSTM_t -> Prop) (n : Z)
    (states hidden : nat) (self : CharLSTM P) (ws : list tens)
    (e : rnn_error) :
  serves inv n states hidden ->
  inv (rnn self) ->
  snd (forward self ws) = inl (RnnError e) ->
  exists pre w post,
    ws = pre ++ w :: post /\
    (exists hs, snd (rnn_calls (rnn self) pre) = inr hs) /\
    valid_word n w = false /\
    snd (rnn_call (after_words (rnn self) pre) (unsqueeze0 w)) = inl e.
Proof.
  intros Hserves Hinv Herr.
  apply forward_inl_rnn in Herr.
  destruct Herr as (pre & w & post & -> & Hpre & Hw).
  exists pre, w, post. split; [reflexivity|]. split; [exact Hpre|].
  split; [|exact Hw].
  destruct (valid_word n w) eqn:Hvalid; [|reflexivity].
  assert (Hs : inv (after_words (rnn self) pre))
    by (apply after_words_inv;
        [exact (serves_keeps _ _ _ _ Hserves)|exact Hinv]).
  destruct Hserves as [_ Hword].
  destruct (Hword _ w Hs Hvalid) as (out & h & c & Hcall & _).
  rewrite Hcall in Hw. discriminate.
Qed.

End Blame.

(** ** Words the encoder does not check *)

Section Unguarded.

Context {P : RecurrentPrimitive}.

Local Abbreviation tens := (tensor scalar).

Lemma for_words_app (xs ys : list tens) :
  forall acc s,
    for_words (xs ++ ys) acc s =
    match for_words xs acc s with
    | (s', inl e) => (s', inl e)
    | (s', inr hs) => for_words ys hs s'
    end.
Proof.
  induction xs as [|x xs IH]; intros acc s; [reflexivity|].
  cbn [app]. rewrite !for_words_cons.
  destruct (encode_word x s) as [s' [e|h]]; [reflexivity|]. apply IH.
Qed.

Lemma for_words_returned (pre : list tens) (s : LSTM_t) (hs : list tens) :
  snd (rnn_calls s pre) = inr hs ->
  for_words pre [] s = (after_words s pre, inr (map as_row hs)).
Proof.
  intros Hpre. rewrite for_words_calls, Hpre.
  now destruct (rnn_calls_inr pre s hs Hpre) as [-> _].
Qed.

(** A primitive that rejects other widths has returned only on words of
    its own width. *)
Lemma rnn_calls_widths (inv : LSTM_t -> Prop) (n : Z) :
  (forall s x, inv s -> inv (fst (rnn_call s x))) ->
  rejects_width inv n ->
  forall pre s hs, inv s ->
    snd (rnn_calls s pre) = inr hs ->
    Forall (fun u => forall l c, shape u = [l; c] -> Z.of_nat c = n) pre.
Proof.
  intros Hnext Hrej pre.
  induction pre as [|u pre IH]; intros s hs Hs Hpre; [constructor|].
  cbn [rnn_calls] in Hpre.
  destruct (rnn_call s (unsqueeze0 u)) as [s' [e|[out [h c]]]] eqn:Hcall;
    cbn [snd] in Hpre; [discriminate|].
  constructor.
  - intros l c0 Hsh. destruct (Z.eq_dec (Z.of_nat c0) n) as [|Hne]; [assumption|].
    destruct (Hrej s u l c0 Hs Hsh Hne) as [e He].
    rewrite Hcall in He. discriminate.
  - assert (Hs' : inv s') by (specialize (Hnext s (unsqueeze0 u) Hs);
                               now rewrite Hcall in Hnext).
    destruct (rnn_calls s' pre) as [s'' [e|hl]] eqn:Hrest; cbn [snd] in Hpre;
      [discriminate|].
    apply (IH s' hl Hs'). now rewrite Hrest.
Qed.

Lemma same_numel_in (h1 : tens) (hl : list tens) (u : tens) :
  same_numel h1 hl = true -> In u (h1 :: hl) ->
  numel (shape u) = numel (shape h1).
Proof.
  intros Hsame [<-|Hin]; [reflexivity|].
  unfold same_numel in Hsame. rewrite forallb_forall in Hsame.
  symmetry. apply Nat.eqb_eq. now apply Hsame.
Qed.

Lemma length_concat_wf (k : nat) (hs : list tens) :
  Forall wf hs ->
  (forall u, In u hs -> numel (shape u) = k) ->
  length (concat (map (@data scalar) hs)) = length hs * k.
Proof.
  induction 1 as [|u hs Hu _ IH]; intros Hk; [reflexivity|].
  cbn [map concat length]. rewrite length_app, IH.
  - unfold wf in Hu. rewrite Hu, (Hk u) by now left. simpl. lia.
  - intros v Hv. apply Hk. now right.
Qed.

(** C5: the encoder has no width check and no error of its own for a
    wrong width; each word goes to the primitive in input order.  When the
    primitive rejects every word whose second dimension differs from
    [n_chars], a call with such a word fails with an error of the
    primitive: the one it raised on the first word it rejected, which is
    that word or an earlier one (no word before it has another width) and
    need not be about the width.  The words after it are not passed on;
    the call returns no tensor, leaves [n_chars] and [output_size] as they
    were, and leaves as it was whatever the calls of the primitive
    preserve, its learnable parameters. *)
Theorem C5_width_check_is_the_primitives (X : Type)
    (parameters : LSTM_t -> X) (inv : LSTM_t -> Prop)
    (self : CharLSTM P) (ws : list tens) (w : tens) (len width : nat) :
  (forall s x, inv s -> inv (fst (rnn_call s x))) ->
  (forall s x, inv s -> parameters (fst (rnn_call s x)) = parameters s) ->
  rejects_width inv (n_chars self) ->
  inv (rnn self) ->
  In w ws -> shape w = [len; width] -> Z.of_nat width <> n_chars self ->
  exists pre w' post e,
    ws = pre ++ w' :: post /\
    (exists hs, snd (rnn_calls (rnn self) pre) = inr hs) /\
    Forall (fun u => forall l c, shape u = [l; c] ->
                       Z.of_nat c = n_chars self) pre /\
    snd (rnn_call (after_words (rnn self) pre) (unsqueeze0 w')) = inl e /\
    forward self ws =
      (mkCharLSTM (n_chars self) (output_size self)
         (fst (rnn_call (after_words (rnn self) pre) (unsqueeze0 w'))),
       inl (RnnError e)) /\
    (forall t, snd (forward self ws) <> inr t) /\
    n_chars (fst (forward self ws)) = n_chars self /\
    output_size (fst (forward self ws)) = output_size self /\
    parameters (rnn (fst (forward self ws))) = parameters (rnn self).
Proof.
  intros Hnext Hpar Hrej Hinv Hin Hsh Hne.
  destruct (for_words_rejects inv _ Hnext Hrej ws [] _ w len width
              Hinv Hin Hsh Hne) as [e He].
  assert (Hres : snd (forward self ws) = inl (RnnError e))
    by (rewrite forward_eq; simpl; now rewrite He).
  assert (Hparams : parameters (rnn (fst (forward self ws)))
                    = parameters (rnn self))
    by (rewrite forward_eq; simpl;
        now apply (for_words_preserves X parameters inv)).
  pose proof (forward_attrs self ws) as [Hn Ho].
  apply forward_inl_rnn in Hres.
  destruct Hres as (pre & w' & post & Hws & [hs Hpre] & Hw').
  assert (Hfwd : forward self ws =
                 (mkCharLSTM (n_chars self) (output_size self)
                    (fst (rnn_call (after_words (rnn self) pre)
                            (unsqueeze0 w'))),
                  inl (RnnError e))).
  { rewrite Hws, forward_calls.
    now rewrite (rnn_calls_stop pre post w' _ hs e Hpre Hw'). }
  exists pre, w', post, e.
  split; [exact Hws|]. split; [now exists hs|].
  split; [exact (rnn_calls_widths inv _ Hnext Hrej pre _ hs Hinv Hpre)|].
  split; [exact Hw'|]. split; [exact Hfwd|].
  split; [intros t; rewrite Hfwd; discriminate|].
  split; [exact Hn|]. split; [exact Ho|exact Hparams].
Qed.

(** C6: the encoder has no policy of its own for a word of length zero;
    it treats it as any other word.  When the primitive raised on a word
    before it, the call has failed with that error and the word is never
    passed on.  When the primitive returned on every word before it, the
    word goes to the primitive as a [[1 x 0 x width]] batch and the
    outcome is the primitive's: its error, raised at once, or the final
    hidden state it returned, with which the loop goes on; whenever the
    call then returns a tensor, the entries of that state are in it at the
    word's position, as the word's row when the states fill their
    shapes.  A call on the one word returns the one row. *)
Theorem C6_empty_word_reaches_primitive (self : CharLSTM P)
    (pre post : list tens) (w : tens) (width : nat) :
  shape w = [0; width] ->
  shape (unsqueeze0 w) = [1; 0; width] /\
  (forall e,
     snd (rnn_calls (rnn self) pre) = inl e ->
     forward self (pre ++ w :: post) =
     (mkCharLSTM (n_chars self) (output_size self)
        (fst (rnn_calls (rnn self) pre)),
      inl (RnnError e))) /\
  (forall hs,
     snd (rnn_calls (rnn self) pre) = inr hs ->
     (forall e,
        snd (rnn_call (after_words (rnn self) pre) (unsqueeze0 w)) = inl e ->
        forward self (pre ++ w :: post) =
        (mkCharLSTM (n_chars self) (output_size self)
           (fst (rnn_call (after_words (rnn self) pre) (unsqueeze0 w))),
         inl (RnnError e))) /\
     (forall out h c,
        snd (rnn_call (after_words (rnn self) pre) (unsqueeze0 w))
        = inr (out, (h, c)) ->
        for_words (pre ++ w :: post) [] (rnn self) =
          for_words post
            (map as_row hs ++ [mkTensor [1; numel (shape h)] (data h)])
            (fst (rnn_call (after_words (rnn self) pre) (unsqueeze0 w))) /\
        (pre = [] -> post = [] ->
         forward self (pre ++ w :: post) =
         (mkCharLSTM (n_chars self) (output_size self)
            (fst (rnn_call (after_words (rnn self) pre) (unsqueeze0 w))),
          inr (mkTensor [1; numel (shape h)] (data h)))) /\
        (forall t,
           snd (forward self (pre ++ w :: post)) = inr t ->
           exists hp,
             snd (rnn_calls
                    (fst (rnn_call (after_words (rnn self) pre)
                            (unsqueeze0 w))) post) = inr hp /\
             t = mkTensor [length (pre ++ w :: post); numel (shape h)]
                   (concat (map (@data scalar) hs) ++ data h
                    ++ concat (map (@data scalar) hp)) /\
             (Forall wf hs -> wf h -> row t (length pre) = data h)))).
Proof.
  intros Hsh. split; [unfold unsqueeze0; simpl; now rewrite Hsh|]. split.
  - intros e Hpre. rewrite forward_calls, rnn_calls_app.
    destruct (rnn_calls (rnn self) pre) as [s1 [e1|h1]]; cbn [fst snd] in *;
      [|discriminate].
    now injection Hpre as ->.
  - intros hs Hpre. split.
    + intros e Hw. rewrite forward_calls.
      now rewrite (rnn_calls_stop pre post w _ hs e Hpre Hw).
    + intros out h c Hcall. split; [|split].
      * rewrite for_words_app, (for_words_returned pre _ hs Hpre).
        rewrite for_words_cons, encode_word_eq, Hcall. reflexivity.
      * intros -> ->. cbn [app after_words] in *.
        rewrite forward_calls. cbn [rnn_calls].
        destruct (rnn_call (rnn self) (unsqueeze0 w)) as [s' r];
          cbn [fst snd] in *. subst r. cbn [fst snd same_numel forallb].
        cbn [length map concat]. now rewrite app_nil_r.
      * intros t Ht. apply forward_inr in Ht.
        destruct Ht as (h1 & hl & Hall & Hsame & ->).
        rewrite rnn_calls_app in Hall.
        destruct (rnn_calls_inr pre _ hs Hpre) as [Hst Hlen].
        destruct (rnn_calls (rnn self) pre) as [s1 [e1|hs1]];
          cbn [fst snd] in *; [discriminate|].
        injection Hpre as ->. subst s1. cbn [rnn_calls] in Hall.
        destruct (rnn_call (after_words (rnn self) pre) (unsqueeze0 w))
          as [s' r]; cbn [fst snd] in *. subst r.
        destruct (rnn_calls s' post) as [s'' [e2|hp]]; cbn [snd] in *;
          [discriminate|].
        injection Hall as Hall.
        assert (Hk : forall u, In u (hs ++ h :: hp) ->
                       numel (shape u) = numel (shape h1))
          by (intros u Hu; rewrite Hall in Hu;
              now apply (same_numel_in h1 hl)).
        assert (Hh : numel (shape h) = numel (shape h1))
          by (apply Hk, in_or_app; right; now left).
        exists hp. split; [reflexivity|]. split.
        -- rewrite Hh, <- Hall. f_equal.
           rewrite map_app, concat_app. reflexivity.
        -- intros Hwfs Hwf. unfold row.
           rewrite <- Hall. cbn [shape data nth].
           rewrite map_app, concat_app. cbn [map concat].
           assert (Hlhs : length (concat (map (@data scalar) hs))
                          = length pre * numel (shape h1)).
           { rewrite <- Hlen. apply length_concat_wf; [exact Hwfs|].
             intros u Hu. apply Hk, in_or_app. now left. }
           rewrite skipn_app, Hlhs, Nat.sub_diag. cbn [skipn].
           rewrite skipn_all2 by lia. cbn [app].
           unfold wf in Hwf. rewrite <- Hh, <- Hwf.
           rewrite firstn_app, Nat.sub_diag, firstn_all. cbn [firstn].
           now rewrite app_nil_r.
Qed.

End Unguarded.

(** ** [forward] run over the small primitives *)

(** Over the primitive that echoes its input, the two words, of lengths
    four and one, have states of twenty and five entries. *)
Lemma forward_size_mismatch_iff_witness :
  snd (forward Toy.echo_encoder Toy.two_words)
  = inl (CatError CatSizeMismatch).
Proof.
  apply (proj2 (forward_size_mismatch_iff (P := Toy.echo) Toy.echo_encoder
                  Toy.two_words)).
  exists (unsqueeze0 (Toy.const_word 4 5 1)),
         [unsqueeze0 (Toy.const_word 1 5 2)].
  split; reflexivity.
Defined.

(** Over the same primitive one word of length four gives a row of twenty
    entries, whatever [output_size] says. *)
Lemma forward_returns_iff_witness :
  snd (forward Toy.echo_encoder [Toy.const_word 4 5 1])
  = inr (mkTensor [1; 20] (repeat 1%Z 20)).
Proof.
  apply (proj2 (forward_returns_iff (P := Toy.echo) Toy.echo_encoder
                  [Toy.const_word 4 5 1] (mkTensor [1; 20] (repeat 1%Z 20)))).
  exists (unsqueeze0 (Toy.const_word 4 5 1)), [].
  repeat split.
Defined.

(** The primitive that checks widths raises on the second of four words:
    the third and fourth change nothing. *)
Lemma forward_stops_at_first_error_witness :
  forward (Toy.encoder true)
    ([Toy.const_word 1 5 1] ++ Toy.const_word 2 4 7 :: Toy.two_words) =
  (mkCharLSTM (P := Toy.strict) 5 6 (Toy.mkToy 5 3 2 true 2),
   inl (RnnError (P := Toy.strict) Toy.InputSizeMismatch)) /\
  forward (Toy.encoder true)
    ([Toy.const_word 1 5 1] ++ Toy.const_word 2 4 7 :: Toy.two_words) =
  forward (Toy.encoder true)
    ([Toy.const_word 1 5 1] ++ [Toy.const_word 2 4 7]).
Proof.
  exact (forward_stops_at_first_error (P := Toy.strict) (Toy.encoder true)
           [Toy.const_word 1 5 1] Toy.two_words (Toy.const_word 2 4 7)
           [Toy.toy_hidden (rnn (Toy.encoder true))
              (unsqueeze0 (Toy.const_word 1 5 1))]
           Toy.InputSizeMismatch eq_refl eq_refl).
Defined.

(** After the two words the module has counted two calls. *)
Lemma forward_calls_once_per_word_witness :
  rnn (fst (forward (Toy.encoder true) Toy.two_words))
  = after_words (P := Toy.strict) (rnn (Toy.encoder true)) Toy.two_words.
Proof.
  apply (forward_calls_once_per_word (P := Toy.strict)).
  intros e. vm_compute. discriminate.
Defined.

(** The two words, then the swapped two, against the four at once. *)
Lemma forward_in_two_calls_witness :
  forward (Toy.encoder true) (Toy.two_words ++ Toy.swapped_words) =
  (fst (forward (fst (forward (Toy.encoder true) Toy.two_words))
          Toy.swapped_words),
   match
     cat0 [mkTensor [2; 6] [20; 21; 22; 23; 24; 25; 10; 11; 12; 13; 14; 15]%Z;
           mkTensor [2; 6] [10; 11; 12; 13; 14; 15; 20; 21; 22; 23; 24; 25]%Z]
   with
   | inl c => inl (CatError c)
   | inr t => inr t
   end).
Proof.
  exact (forward_in_two_calls (P := Toy.strict) (Toy.encoder true)
           Toy.two_words Toy.swapped_words
           (mkTensor [2; 6] [20; 21; 22; 23; 24; 25; 10; 11; 12; 13; 14; 15]%Z)
           (mkTensor [2; 6] [10; 11; 12; 13; 14; 15; 20; 21; 22; 23; 24; 25]%Z)
           eq_refl eq_refl).
Defined.

(** The rows of the two words are the first two rows of the four. *)
Lemma forward_prefix_witness :
  exists a rest,
    snd (forward (Toy.encoder true) Toy.two_words) = inr a /\
    shape a = [2; 6] /\
    [20; 21; 22; 23; 24; 25; 10; 11; 12; 13; 14; 15;
     10; 11; 12; 13; 14; 15; 20; 21; 22; 23; 24; 25]%Z = data a ++ rest /\
    (wf a -> forall i, i < 2 ->
       row (mkTensor [4; 6]
              [20; 21; 22; 23; 24; 25; 10; 11; 12; 13; 14; 15;
               10; 11; 12; 13; 14; 15; 20; 21; 22; 23; 24; 25]%Z) i
       = row a i).
Proof.
  exact (forward_prefix (P := Toy.strict) (Toy.encoder true)
           Toy.two_words Toy.swapped_words
           (mkTensor [4; 6]
              [20; 21; 22; 23; 24; 25; 10; 11; 12; 13; 14; 15;
               10; 11; 12; 13; 14; 15; 20; 21; 22; 23; 24; 25]%Z)
           ltac:(discriminate) eq_refl).
Defined.

(** The width error of the checking primitive points at the word of width
    four, the first on which it raised. *)
Lemma forward_error_blames_word_witness :
  exists pre w post,
    [Toy.const_word 1 5 1; Toy.const_word 2 4 7] = pre ++ w :: post /\
    (exists hs,
       snd (rnn_calls (P := Toy.strict) (rnn (Toy.encoder true)) pre)
       = inr hs) /\
    valid_word (P := Toy.strict) 5 w = false /\
    snd (rnn_call (RecurrentPrimitive := Toy.strict)
           (after_words (P := Toy.strict) (rnn (Toy.encoder true)) pre)
           (unsqueeze0 w))
    = inl Toy.InputSizeMismatch.
Proof.
  exact (forward_error_blames_word (P := Toy.strict)
           (Toy.built true 5 3 1 true) 5 _ _ (Toy.encoder true)
           [Toy.const_word 1 5 1; Toy.const_word 2 4 7]
           Toy.InputSizeMismatch
           (toy_serves true 5 3 1 true) (toy_built true) eq_refl).
Defined.

(** ** The encoder over primitives that check less, or drift *)


(** A word of width four given to [CharLSTM(5, 3)]: over the primitive
    that checks nothing the call returns a row; over the one that checks,
    behind a word of length zero, the call fails on the length and the
    word of width four never reaches the primitive. *)
Lemma C5_counterexample :
  shape (Toy.const_word 2 4 7) = [2; 4] /\
  Z.of_nat 4 <> n_chars (Toy.encoder false) /\
  snd (forward (Toy.encoder false) [Toy.const_word 2 4 7])
  = inr (mkTensor [1; 6] [56; 57; 58; 59; 60; 61]%Z) /\
  forward (Toy.encoder true) [Toy.const_word 0 5 1; Toy.const_word 2 4 7]
  = (mkCharLSTM (P := Toy.strict) 5 6 (Toy.mkToy 5 3 2 true 1),
     inl (RnnError (P := Toy.strict) Toy.EmptySequence)).
Proof. repeat split. discriminate. Qed.

(** The same call over the checking primitive: the error is the one of
    the first word the primitive rejected, here the word of length
    zero. *)
Lemma C5_width_check_is_the_primitives_witness :
  exists pre w' post e,
    [Toy.const_word 0 5 1; Toy.const_word 2 4 7] = pre ++ w' :: post /\
    (exists hs,
       snd (rnn_calls (P := Toy.strict) (rnn (Toy.encoder true)) pre)
       = inr hs) /\
    Forall (fun u => forall l c, shape u = [l; c] ->
                       Z.of_nat c = n_chars (Toy.encoder true)) pre /\
    snd (rnn_call (RecurrentPrimitive := Toy.strict)
           (after_words (P := Toy.strict) (rnn (Toy.encoder true)) pre)
           (unsqueeze0 w')) = inl e /\
    forward (Toy.encoder true)
      [Toy.const_word 0 5 1; Toy.const_word 2 4 7] =
      (mkCharLSTM (n_chars (Toy.encoder true))
         (output_size (Toy.encoder true))
         (fst (rnn_call (RecurrentPrimitive := Toy.strict)
                 (after_words (P := Toy.strict) (rnn (Toy.encoder true)) pre)
                 (unsqueeze0 w'))),
       inl (RnnError e)) /\
    (forall t,
       snd (forward (Toy.encoder true)
              [Toy.const_word 0 5 1; Toy.const_word 2 4 7]) <> inr t) /\
    n_chars (fst (forward (Toy.encoder true)
                    [Toy.const_word 0 5 1; Toy.const_word 2 4 7]))
    = n_chars (Toy.encoder true) /\
    output_size (fst (forward (Toy.encoder true)
                        [Toy.const_word 0 5 1; Toy.const_word 2 4 7]))
    = output_size (Toy.encoder true) /\
    Toy.toy_parameters
      (rnn (fst (forward (Toy.encoder true)
                   [Toy.const_word 0 5 1; Toy.const_word 2 4 7])))
    = Toy.toy_parameters (rnn (Toy.encoder true)).
Proof.
  exact (C5_width_check_is_the_primitives (P := Toy.strict) _
           Toy.toy_parameters
           (Toy.built true 5 3 1 true) (Toy.encoder true)
           [Toy.const_word 0 5 1; Toy.const_word 2 4 7]
           (Toy.const_word 2 4 7) 2 4
           (toy_next true 5 3 1 true) toy_parameters_kept
           (toy_rejects 5 3 1 true)
           (toy_built true) (or_intror (or_introl eq_refl)) eq_refl
           ltac:(discriminate)).
Defined.

(** A word of length zero between valid words, over the primitive that
    checks nothing: the call returns, and the second row holds the state
    the primitive returned for the word. *)
Lemma C6_empty_word_reaches_primitive_witness :
  shape (unsqueeze0 (Toy.const_word 0 5 1)) = [1; 0; 5] /\
  snd (forward (Toy.encoder false)
         ([Toy.const_word 1 5 1] ++ Toy.const_word 0 5 1 :: Toy.two_words))
  = inr (mkTensor [4; 6]
           [5; 6; 7; 8; 9; 10; 0; 1; 2; 3; 4; 5;
            20; 21; 22; 23; 24; 25; 10; 11; 12; 13; 14; 15]%Z) /\
  row (mkTensor [4; 6]
         [5; 6; 7; 8; 9; 10; 0; 1; 2; 3; 4; 5;
          20; 21; 22; 23; 24; 25; 10; 11; 12; 13; 14; 15]%Z) 1
  = [0; 1; 2; 3; 4; 5]%Z.
Proof.
  destruct (C6_empty_word_reaches_primitive (P := Toy.loose)
              (Toy.encoder false) [Toy.const_word 1 5 1] Toy.two_words
              (Toy.const_word 0 5 1) 5 eq_refl) as (Hshape & _ & Hreached).
  split; [exact Hshape|]. split; [reflexivity|].
  destruct (Hreached
              [Toy.toy_hidden (rnn (Toy.encoder false))
                 (unsqueeze0 (Toy.const_word 1 5 1))] eq_refl)
    as [_ Hreturned].
  destruct (Hreturned
              (unsqueeze0 (Toy.const_word 0 5 1))
              (Toy.toy_hidden (Toy.mkToy 5 3 2 false 1)
                 (unsqueeze0 (Toy.const_word 0 5 1)))
              (Toy.toy_cell (Toy.mkToy 5 3 2 false 1)) eq_refl)
    as (_ & _ & Hrow).
  destruct (Hrow _ eq_refl) as (hp & _ & _ & Hat).
  apply Hat; repeat constructor.
Defined.


